(** * Receipt splitter: the totals engine and the URL state codec

    A shallow embedding of [computeTotals] (App.tsx) and of
    [encodeState] / [decodeState] (lib/url-state.ts), with the JavaScript
    built-ins they call modelled after ECMAScript and the HTML standard;
    then of the effects and handlers that keep the item rows (App.tsx) and
    of the line reader of components/ReceiptScanner.tsx.

    Numbers.  A JavaScript number is modelled as an exact rational, or one of
    the three special values of IEEE 754 arithmetic.  Rounding and overflow of
    binary64 are not modelled: arithmetic on finite values is exact.  What is
    proved of sums, products and quotients is therefore proved of exact
    arithmetic, and says so; [Binary64] runs the same engine on doubles, to
    show where the code departs from it.  Zero is
    unsigned; the only divisors in [computeTotals] are the literal 100 and sums
    accumulated from +0, which are never -0, so the sign of a zero cannot
    change which of finite / infinite / NaN a result is.

    Strings.  A JavaScript string is the list of its UTF-16 code units.

    Objects.  [totals] in [computeTotals] is a finite map from property names
    to entries, read through [Object.prototype] as the literal [{}] is.  A
    value that JSON text denotes is a tree whose objects are lists of
    properties in the order they were set; the order in which integer-like
    keys are enumerated is not modelled, and nothing below depends on it.

    The first part of the file holds the definitions, the second part the
    properties. *)

From Stdlib Require Import ZArith QArith Qcanon Lia.
From Stdlib Require Floats.SpecFloat.
From stdpp Require Import base numbers list option strings gmap fin_maps.

Local Open Scope Z_scope.

(** ** Strings *)

Abbreviation jsstring := (list N).

(** An ASCII literal as a JavaScript string. *)
Fixpoint js (s : string) : jsstring :=
  match s with
  | EmptyString => []
  | String a r => Ascii.N_of_ascii a :: js r
  end.

(** Drops the code unit [c] from the front of [s], if it is there. *)
Definition eat (c : N) (s : jsstring) : option jsstring :=
  match s with
  | d :: r => if (d =? c)%N then Some r else None
  | [] => None
  end.

(** ** Numbers *)

Module Num.

Inductive num : Type :=
  | Fin (q : Qc)
  | PInf
  | NInf
  | NaN.

Definition is_zero (q : Qc) : bool := (Qnum q =? 0)%Z.
Definition is_pos (q : Qc) : bool := (0 <? Qnum q)%Z.
Definition is_neg (q : Qc) : bool := (Qnum q <? 0)%Z.

Definition inf_of_sign (positive : bool) : num :=
  if positive then PInf else NInf.

Definition zero : num := Fin 0%Qc.
Definition of_Z (z : Z) : num := Fin (Qc_of_Z z).

(** [x + y] *)
Definition add (x y : num) : num :=
  match x, y with
  | NaN, _ | _, NaN => NaN
  | PInf, NInf | NInf, PInf => NaN
  | PInf, _ | _, PInf => PInf
  | NInf, _ | _, NInf => NInf
  | Fin a, Fin b => Fin (a + b)%Qc
  end.

Definition neg (x : num) : num :=
  match x with
  | Fin a => Fin (- a)%Qc
  | PInf => NInf
  | NInf => PInf
  | NaN => NaN
  end.

(** [x - y] *)
Definition sub (x y : num) : num := add x (neg y).

(** [x * y]: infinity times zero is NaN. *)
Definition mul (x y : num) : num :=
  match x, y with
  | NaN, _ | _, NaN => NaN
  | Fin a, Fin b => Fin (a * b)%Qc
  | Fin a, PInf | PInf, Fin a =>
      if is_zero a then NaN else inf_of_sign (is_pos a)
  | Fin a, NInf | NInf, Fin a =>
      if is_zero a then NaN else inf_of_sign (is_neg a)
  | PInf, PInf | NInf, NInf => PInf
  | PInf, NInf | NInf, PInf => NInf
  end.

(** [x / y]: 0/0 is NaN, a non-zero finite value over zero is an infinity of
    the sign of the dividend (the divisor is +0), a finite value over an
    infinity is zero, and infinity over infinity is NaN. *)
Definition div (x y : num) : num :=
  match x, y with
  | NaN, _ | _, NaN => NaN
  | Fin a, Fin b =>
      if is_zero b
      then (if is_zero a then NaN else inf_of_sign (is_pos a))
      else Fin (a / b)%Qc
  | Fin _, PInf | Fin _, NInf => zero
  | PInf, Fin b => inf_of_sign (negb (is_neg b))
  | NInf, Fin b => inf_of_sign (is_neg b)
  | PInf, PInf | PInf, NInf | NInf, PInf | NInf, NInf => NaN
  end.

(** ToBoolean on a number: NaN and zero are falsy. *)
Definition truthy (x : num) : bool :=
  match x with
  | Fin a => negb (is_zero a)
  | NaN => false
  | PInf | NInf => true
  end.

(** [x || y] on numbers. *)
Definition or_else (x y : num) : num := if truthy x then x else y.

Definition is_finite (x : num) : bool :=
  match x with Fin _ => true | _ => false end.

Definition is_nan (x : num) : bool :=
  match x with NaN => true | _ => false end.


(** Decidable comparison, used to evaluate concrete examples. *)
Definition eqb (x y : num) : bool :=
  match x, y with
  | Fin a, Fin b => Qeq_bool a b
  | PInf, PInf | NInf, NInf | NaN, NaN => true
  | _, _ => false
  end.

End Num.

Export Num.

Declare Scope num_scope.
Delimit Scope num_scope with num.
Bind Scope num_scope with num.
Infix "+" := Num.add : num_scope.
Infix "-" := Num.sub : num_scope.
Infix "*" := Num.mul : num_scope.
Infix "/" := Num.div : num_scope.

(** ** parseFloat

    ECMAScript [parseFloat]: leading white space is skipped, then the longest
    prefix that is a StrDecimalLiteral is taken; with no such prefix the result
    is NaN.  The value of the literal is exact. *)

Module ParseFloat.

Definition is_white (c : N) : bool :=
  match c with
  | 9 | 10 | 11 | 12 | 13 | 32 | 160 | 5760 | 8232 | 8233 | 8239 | 8287
  | 12288 | 65279 => true
  | _ => ((8192 <=? c) && (c <=? 8202))%N
  end%N.

Fixpoint skip_white (s : jsstring) : jsstring :=
  match s with
  | c :: r => if is_white c then skip_white r else s
  | [] => []
  end.

Definition digit_of (c : N) : option Z :=
  if ((48 <=? c) && (c <=? 57))%N then Some (Z.of_N c - 48) else None.

(** Reads a maximal run of decimal digits: its value on top of [acc], the
    number of digits read, and the rest of the input. *)
Fixpoint digits (s : jsstring) (acc : Z) (count : nat) : Z * nat * jsstring :=
  match s with
  | c :: r =>
      match digit_of c with
      | Some d => digits r (10 * acc + d) (S count)
      | None => (acc, count, s)
      end
  | [] => (acc, count, [])
  end.

(** An optional ExponentPart; it counts only when at least one digit follows
    the [e] and the optional sign. *)
Definition exponent (s : jsstring) : Z :=
  match s with
  | c :: r =>
      if ((c =? 101) || (c =? 69))%N then
        let '(negative, r') :=
          match r with
          | 45%N :: r' => (true, r')
          | 43%N :: r' => (false, r')
          | _ => (false, r)
          end in
        let '(e, n, _) := digits r' 0 0%nat in
        match n with
        | O => 0
        | S _ => if negative then - e else e
        end
      else 0
  | [] => 0
  end.

(** [m * 10^e] as an exact rational. *)
Definition scale10 (m e : Z) : Qc :=
  if (0 <=? e)%Z then Qc_of_Z (m * 10 ^ e)
  else Q2Qc (Qmake m (Z.to_pos (10 ^ (- e)))).

Definition infinity_word : jsstring := js "Infinity".

Fixpoint starts_with (p s : jsstring) : bool :=
  match p, s with
  | [], _ => true
  | a :: p', b :: s' => (a =? b)%N && starts_with p' s'
  | _ :: _, [] => false
  end.

(** An unsigned StrUnsignedDecimalLiteral prefix, or [None]. *)
Definition unsigned_literal (s : jsstring) : option num :=
  if starts_with infinity_word s then Some PInf
  else
    let '(ip, ni, r) := digits s 0 0%nat in
    match r with
    | 46%N :: r' =>
        let '(m, nf, r'') := digits r' ip 0%nat in
        match ni, nf with
        | O, O => None
        | _, _ => Some (Fin (scale10 m (exponent r'' - Z.of_nat nf)))
        end
    | _ =>
        match ni with
        | O => None
        | S _ => Some (Fin (scale10 ip (exponent r)))
        end
    end.

Definition parseFloat (input : jsstring) : num :=
  let s := skip_white input in
  let '(negative, body) :=
    match s with
    | 45%N :: r => (true, r)
    | 43%N :: r => (false, r)
    | _ => (false, s)
    end in
  match unsigned_literal body with
  | Some v => if negative then Num.neg v else v
  | None => NaN
  end.

End ParseFloat.

Export ParseFloat.

(** ** Data model (types.ts) *)

Record LineItem : Type := {
  name : jsstring;
  price : num;
  category : jsstring;
  taxable : bool
}.

Record CategoryTotal : Type := {
  subtotal : num;
  discount : num;
  tax : num;
  total : num
}.

Inductive DiscountType : Type := percentage | amount.

(** [CategoryTotals] is a plain object used as a dictionary: its own
    properties, keyed by category.  The order in which [Object.keys] and
    [Object.values] enumerate them is the order of [map_to_list]; the results
    below do not depend on it. *)
Abbreviation CategoryTotals := (gmap jsstring CategoryTotal).

(** ** The totals engine (computeTotals in App.tsx) *)

Module Engine.

(** [totals] is created by the literal [{}], so a property read that misses
    the own properties continues in [Object.prototype].  These are the names
    it defines; every one of them holds a function or an object. *)
Definition Object_prototype_names : list jsstring :=
  js <$> [ "constructor"; "__proto__"; "hasOwnProperty"; "isPrototypeOf";
           "propertyIsEnumerable"; "toLocaleString"; "toString"; "valueOf";
           "__defineGetter__"; "__defineSetter__"; "__lookupGetter__";
           "__lookupSetter__" ]%string.

Definition inherited (key : jsstring) : bool :=
  bool_decide (key ∈ Object_prototype_names).

(** ToBoolean of [totals[key]]: an own entry is an object, an inherited
    property is a function or an object, a miss is [undefined]. *)
Definition has_truthy (totals : CategoryTotals) (key : jsstring) : bool :=
  match totals !! key with
  | Some _ => true
  | None => inherited key
  end.

Definition fresh_entry : CategoryTotal :=
  {| subtotal := zero; discount := zero; tax := zero; total := zero |}.

Definition add_to_subtotal (p : num) (t : CategoryTotal) : CategoryTotal :=
  {| subtotal := (subtotal t + p)%num;
     discount := discount t; tax := tax t; total := total t |}.

(** The body of [items.forEach] in the first pass.  When [totals[key]] is an
    inherited property the [+=] writes to that inherited object and [totals]
    keeps its own properties: [alter] on a missing key changes nothing. *)
Definition accumulate (totals : CategoryTotals) (item : LineItem)
  : CategoryTotals :=
  let totals' :=
    if negb (has_truthy totals (category item))
    then <[category item := fresh_entry]> totals
    else totals in
  alter (add_to_subtotal (price item)) (category item) totals'.

Definition subtotals (items : list LineItem) : CategoryTotals :=
  foldl accumulate ∅ items.

Definition Object_keys (totals : CategoryTotals) : list jsstring :=
  (map_to_list totals).*1.

Definition Object_values (totals : CategoryTotals) : list CategoryTotal :=
  (map_to_list totals).*2.

(** [Object.values(totals).reduce((sum, val) => sum + val.subtotal, 0)] *)
Definition totalSubtotal (totals : CategoryTotals) : num :=
  foldl (fun sum val => (sum + subtotal val)%num) zero (Object_values totals).

Definition hundred : num := of_Z 100.

Section second_pass.
Variable items : list LineItem.
Variable discountType : DiscountType.
Variables rate dValue total_subtotal : num.

Definition category_discount (t : CategoryTotal) : num :=
  match discountType with
  | percentage => (subtotal t * (dValue / hundred))%num
  | amount => (dValue * (subtotal t / total_subtotal))%num
  end.

(** [items.filter(item => item.category === cat && item.taxable)] *)
Definition taxable_in (cat : jsstring) : list LineItem :=
  filter (fun item => category item = cat ∧ taxable item = true) items.

(** The [reduce] callback of the tax computation. *)
Definition tax_step (sub disc : num) (sum : num) (item : LineItem) : num :=
  let itemDiscount := (price item / sub * disc)%num in
  (sum + (price item - itemDiscount) * rate)%num.

Definition category_tax (cat : jsstring) (sub disc : num) : num :=
  foldl (tax_step sub disc) zero (taxable_in cat).

Definition settled (cat : jsstring) (t : CategoryTotal) : CategoryTotal :=
  let disc := category_discount t in
  let afterDiscount := (subtotal t - disc)%num in
  let tx := category_tax cat (subtotal t) disc in
  {| subtotal := subtotal t; discount := disc; tax := tx;
     total := (afterDiscount + tx)%num |}.

(** The body of [Object.keys(totals).forEach] in the second pass. *)
Definition settle (totals : CategoryTotals) (cat : jsstring)
  : CategoryTotals :=
  match totals !! cat with
  | Some t => <[cat := settled cat t]> totals
  | None => totals
  end.
End second_pass.

(** [parseFloat(taxRate) / 100] *)
Definition rate_of (taxRate : jsstring) : num :=
  (parseFloat taxRate / hundred)%num.

(** [parseFloat(discountValue) || 0] *)
Definition dValue_of (discountValue : jsstring) : num :=
  or_else (parseFloat discountValue) zero.

Definition computeTotals (items : list LineItem) (taxRate : jsstring)
    (discountType : DiscountType) (discountValue : jsstring)
  : CategoryTotals :=
  let rate := rate_of taxRate in
  let dValue := dValue_of discountValue in
  let totals := subtotals items in
  let total_subtotal := totalSubtotal totals in
  foldl (settle items discountType rate dValue total_subtotal)
        totals (Object_keys totals).

End Engine.

Export Engine.

(** An item with ASCII text and a rational price. *)
Definition item (n : string) (p : Q) (c : string) (t : bool) : LineItem :=
  {| name := js n; price := Fin (Q2Qc p); category := js c; taxable := t |}.

(** ** JavaScript values that JSON text can denote *)

#[local] Set Warnings "-register-all".

Inductive value : Type :=
  | VNull
  | VBool (b : bool)
  | VNum (n : num)
  | VStr (s : jsstring)
  | VArr (elems : list value)
  | VObj (props : list (jsstring * value)).

(** ** Exceptions *)

Inductive exn : Type := InvalidCharacterError | SyntaxError.

Inductive outcome (A : Type) : Type :=
  | Return (a : A)
  | Throw (e : exn).

Arguments Return {A} a.
Arguments Throw {A} e.

Definition and_then {A B} (x : outcome A) (f : A -> outcome B) : outcome B :=
  match x with
  | Return a => f a
  | Throw e => Throw e
  end.

(** [try { body } catch (e) { handler }] *)
Definition try_catch {A} (body : outcome A) (handler : exn -> outcome A)
  : outcome A :=
  match body with
  | Return a => Return a
  | Throw e => handler e
  end.

(** ** Number::toString, radix 10

    For a finite non-zero [x], ECMAScript takes integers [n], [k], [s] with
    [10^(k-1) <= s < 10^k] and [s * 10^(n-k) = x], [k] as small as it can be,
    and lays the digits of [s] out according to [n].  Here [x] is an exact
    rational: its expansion is cut after 17 significant digits, the most a
    binary64 value needs, so a value with at most 17 significant digits is
    printed exactly. *)

Module NumberToString.

Definition digit_char (d : Z) : N := (48 + Z.to_N d)%N.

Fixpoint decimal_fuel (fuel : nat) (z : Z) (acc : jsstring) : jsstring :=
  match fuel with
  | O => acc
  | S fuel' =>
      if z <? 10 then digit_char z :: acc
      else decimal_fuel fuel' (z / 10) (digit_char (z mod 10) :: acc)
  end.

(** The decimal digits of a non-negative integer. *)
Definition decimal (z : Z) : jsstring :=
  decimal_fuel (S (Z.to_nat (Z.log2 z))) z [].

(** The least [m >= n] with [a < 10^m * b]. *)
Fixpoint exp_up (fuel : nat) (a b n : Z) : Z :=
  match fuel with
  | O => n
  | S fuel' => if a <? 10 ^ n * b then n else exp_up fuel' a b (n + 1)
  end.

(** The greatest [m <= n] with [b <= a * 10^(1-m)]. *)
Fixpoint exp_down (fuel : nat) (a b n : Z) : Z :=
  match fuel with
  | O => n
  | S fuel' => if b <=? a * 10 ^ (1 - n) then n else exp_down fuel' a b (n - 1)
  end.

(** [n] with [10^(n-1) <= a/b < 10^n], for positive [a] and [b]. *)
Definition exponent10 (a b : Z) : Z :=
  if b <=? a then exp_up (S (Z.to_nat (Z.log2 a))) a b 1
  else exp_down (S (Z.to_nat (Z.log2 b))) a b 0.

Definition precision : Z := 17.

Fixpoint strip_zeros (fuel : nat) (s k : Z) : Z * Z :=
  match fuel with
  | O => (s, k)
  | S fuel' =>
      if (s mod 10 =? 0) && (1 <? k) then strip_zeros fuel' (s / 10) (k - 1)
      else (s, k)
  end.

(** [(s, k, n)] for the positive rational [a/b]. *)
Definition significand (a b : Z) : Z * Z * Z :=
  let n := exponent10 a b in
  let s17 :=
    if 0 <=? precision - n then a * 10 ^ (precision - n) / b
    else a / (b * 10 ^ (n - precision)) in
  let '(s, k) := strip_zeros (Z.to_nat precision) s17 precision in
  (s, k, n).

Definition zeros (count : Z) : jsstring := replicate (Z.to_nat count) 48%N.

Definition layout (s k n : Z) : jsstring :=
  let ds := decimal s in
  if (k <=? n) && (n <=? 21) then ds ++ zeros (n - k)
  else if (0 <? n) && (n <=? 21) then
    take (Z.to_nat n) ds ++ [46%N] ++ drop (Z.to_nat n) ds
  else if (-6 <? n) && (n <=? 0) then
    [48%N; 46%N] ++ zeros (- n) ++ ds
  else
    let e := n - 1 in
    let sign := if e <? 0 then 45%N else 43%N in
    let mantissa :=
      if k =? 1 then ds else take 1 ds ++ [46%N] ++ drop 1 ds in
    mantissa ++ [101%N; sign] ++ decimal (Z.abs e).

Definition positive_to_string (q : Qc) : jsstring :=
  let '(s, k, n) := significand (Qnum q) (Zpos (Qden q)) in
  layout s k n.

Definition number_to_string (x : num) : jsstring :=
  match x with
  | NaN => js "NaN"
  | PInf => js "Infinity"
  | NInf => js "-Infinity"
  | Fin q =>
      if is_zero q then [48%N]
      else if is_neg q then 45%N :: positive_to_string (- q)%Qc
      else positive_to_string q
  end.

End NumberToString.

Export NumberToString.

(** ** JSON.stringify *)

Module Stringify.

Definition hex_char (d : N) : N := if (d <? 10)%N then (48 + d)%N else (87 + d)%N.

(** [\uXXXX] with lower-case hexadecimal digits. *)
Definition unicode_escape (c : N) : jsstring :=
  [92; 117; hex_char (c / 4096 mod 16); hex_char (c / 256 mod 16);
   hex_char (c / 16 mod 16); hex_char (c mod 16)]%N.

Definition is_high_surrogate (c : N) : bool := ((55296 <=? c) && (c <=? 56319))%N.
Definition is_low_surrogate (c : N) : bool := ((56320 <=? c) && (c <=? 57343))%N.

(** The two-character escapes: the letter that follows the backslash. *)
Definition short_escape (c : N) : option N :=
  if (c =? 8)%N then Some 98%N
  else if (c =? 9)%N then Some 116%N
  else if (c =? 10)%N then Some 110%N
  else if (c =? 12)%N then Some 102%N
  else if (c =? 13)%N then Some 114%N
  else if (c =? 34)%N then Some 34%N
  else if (c =? 92)%N then Some 92%N
  else None.

(** One code unit that is not the first half of a surrogate pair. *)
Definition quote_unit (c : N) : jsstring :=
  match short_escape c with
  | Some e => [92%N; e]
  | None =>
      if (c <? 32)%N || is_high_surrogate c || is_low_surrogate c
      then unicode_escape c
      else [c]
  end.

(** QuoteJSONString without the surrounding quotes: a well-formed surrogate
    pair is copied, a lone surrogate is escaped. *)
Fixpoint quote_body (s : jsstring) : jsstring :=
  match s with
  | [] => []
  | c :: r =>
      match r with
      | d :: r' =>
          if is_high_surrogate c && is_low_surrogate d
          then c :: d :: quote_body r'
          else quote_unit c ++ quote_body r
      | [] => quote_unit c
      end
  end.

Definition quote (s : jsstring) : jsstring := [34%N] ++ quote_body s ++ [34%N].

Fixpoint join_comma (parts : list jsstring) : jsstring :=
  match parts with
  | [] => []
  | [p] => p
  | p :: rest => p ++ [44%N] ++ join_comma rest
  end.

(** A number in JSON text: a value that is not finite is written [null]. *)
Definition number_json (x : num) : jsstring :=
  if is_finite x then number_to_string x else js "null".

Fixpoint JSON_stringify (v : value) : jsstring :=
  match v with
  | VNull => js "null"
  | VBool true => js "true"
  | VBool false => js "false"
  | VNum n => number_json n
  | VStr s => quote s
  | VArr elems => [91%N] ++ join_comma (map JSON_stringify elems) ++ [93%N]
  | VObj props =>
      [123%N]
      ++ join_comma
           (map (fun p => quote (fst p) ++ [58%N] ++ JSON_stringify (snd p))
                props)
      ++ [125%N]
  end.

End Stringify.

Export Stringify.

(** ** btoa and atob (HTML standard, forgiving-base64) *)

Module Base64.

Definition alphabet_char (i : N) : N :=
  if (i <? 26)%N then (65 + i)%N
  else if (i <? 52)%N then (97 + (i - 26))%N
  else if (i <? 62)%N then (48 + (i - 52))%N
  else if (i =? 62)%N then 43%N
  else 47%N.

Definition alphabet_index (c : N) : option N :=
  if ((65 <=? c) && (c <=? 90))%N then Some (c - 65)%N
  else if ((97 <=? c) && (c <=? 122))%N then Some (c - 71)%N
  else if ((48 <=? c) && (c <=? 57))%N then Some (c + 4)%N
  else if (c =? 43)%N then Some 62%N
  else if (c =? 47)%N then Some 63%N
  else None.

Fixpoint encode (bytes : list N) : jsstring :=
  match bytes with
  | [] => []
  | [a] =>
      [alphabet_char (a / 4); alphabet_char (a mod 4 * 16); 61; 61]%N
  | [a; b] =>
      [alphabet_char (a / 4); alphabet_char (a mod 4 * 16 + b / 16);
       alphabet_char (b mod 16 * 4); 61]%N
  | a :: b :: c :: rest =>
      [alphabet_char (a / 4); alphabet_char (a mod 4 * 16 + b / 16);
       alphabet_char (b mod 16 * 4 + c / 64); alphabet_char (c mod 64)]%N
      ++ encode rest
  end.

(** [btoa] throws when a code unit of its argument is above U+00FF. *)
Definition btoa (data : jsstring) : outcome jsstring :=
  if forallb (fun c => (c <=? 255)%N) data then Return (encode data)
  else Throw InvalidCharacterError.

Definition is_ascii_whitespace (c : N) : bool :=
  match c with
  | 9 | 10 | 12 | 13 | 32 => true
  | _ => false
  end%N.

(** Removes one or two trailing [=]. *)
Definition strip_padding (data : jsstring) : jsstring :=
  match eat 61 (rev data) with
  | Some r =>
      match eat 61 r with
      | Some r' => rev r'
      | None => rev r
      end
  | None => data
  end.

(** Groups of four 6-bit values give three bytes; a final group of two or
    three values gives one or two bytes and its left-over bits are dropped. *)
Fixpoint decode (sextets : list N) : list N :=
  match sextets with
  | a :: b :: c :: d :: rest =>
      [a * 4 + b / 16; b mod 16 * 16 + c / 4; c mod 4 * 64 + d]%N
      ++ decode rest
  | [a; b; c] => [a * 4 + b / 16; b mod 16 * 16 + c / 4]%N
  | [a; b] => [a * 4 + b / 16]%N
  | _ => []
  end.

Definition atob (data : jsstring) : outcome jsstring :=
  let stripped := filter (fun c => is_ascii_whitespace c = false) data in
  let unpadded :=
    if (length stripped mod 4 =? 0)%nat then strip_padding stripped
    else stripped in
  if (length unpadded mod 4 =? 1)%nat then Throw InvalidCharacterError
  else
    match mapM alphabet_index unpadded with
    | Some sextets => Return (decode sextets)
    | None => Throw InvalidCharacterError
    end.

End Base64.

Export Base64.

(** ** JSON.parse

    The value of a number literal is exact.  An object is the list of its
    properties in the order they were first set; a repeated key overwrites the
    value and keeps the position. *)

Module Parse.

Inductive parsed (A : Type) : Type :=
  | Parsed (a : A) (rest : jsstring)
  | Invalid
  | OutOfFuel.

Arguments Parsed {A} a rest.
Arguments Invalid {A}.
Arguments OutOfFuel {A}.

Definition is_json_white (c : N) : bool :=
  match c with
  | 9 | 10 | 13 | 32 => true
  | _ => false
  end%N.

Fixpoint skip_ws (s : jsstring) : jsstring :=
  match s with
  | c :: r => if is_json_white c then skip_ws r else s
  | [] => []
  end.

Definition hex_value (c : N) : option N :=
  if ((48 <=? c) && (c <=? 57))%N then Some (c - 48)%N
  else if ((97 <=? c) && (c <=? 102))%N then Some (c - 87)%N
  else if ((65 <=? c) && (c <=? 70))%N then Some (c - 55)%N
  else None.

Definition hex4 (a b c d : N) : option N :=
  match hex_value a, hex_value b, hex_value c, hex_value d with
  | Some x, Some y, Some z, Some w => Some (x * 4096 + y * 256 + z * 16 + w)%N
  | _, _, _, _ => None
  end.

Definition simple_escape (e : N) : option N :=
  if (e =? 34)%N then Some 34%N
  else if (e =? 92)%N then Some 92%N
  else if (e =? 47)%N then Some 47%N
  else if (e =? 98)%N then Some 8%N
  else if (e =? 102)%N then Some 12%N
  else if (e =? 110)%N then Some 10%N
  else if (e =? 114)%N then Some 13%N
  else if (e =? 116)%N then Some 9%N
  else None.

(** The characters of a string literal after its opening quote, up to and
    including the closing quote; [acc] holds the decoded units, last first. *)
Fixpoint string_body (s : jsstring) (acc : jsstring)
  : option (jsstring * jsstring) :=
  match s with
  | [] => None
  | c :: r =>
      if (c =? 34)%N then Some (rev acc, r)
      else if (c =? 92)%N then
        match r with
        | e :: r1 =>
            if (e =? 117)%N then
              match r1 with
              | h1 :: h2 :: h3 :: h4 :: r2 =>
                  match hex4 h1 h2 h3 h4 with
                  | Some u => string_body r2 (u :: acc)
                  | None => None
                  end
              | _ => None
              end
            else
              match simple_escape e with
              | Some u => string_body r1 (u :: acc)
              | None => None
              end
        | [] => None
        end
      else if (c <? 32)%N then None
      else string_body r (c :: acc)
  end.

Definition optional_minus (s : jsstring) : bool * jsstring :=
  match eat 45 s with
  | Some r => (true, r)
  | None => (false, s)
  end.

Definition optional_sign (s : jsstring) : bool * jsstring :=
  match eat 45 s with
  | Some r => (true, r)
  | None =>
      match eat 43 s with
      | Some r => (false, r)
      | None => (false, s)
      end
  end.

(** [frac?] after an integer part of value [ip]: the digits read so far as
    one integer, and how many of them follow the point. *)
Definition fraction_part (ip : Z) (s : jsstring) : option (Z * Z * jsstring) :=
  match eat 46 s with
  | Some r =>
      let '(m, nf, r') := digits r ip 0%nat in
      if (nf =? 0)%nat then None else Some (m, Z.of_nat nf, r')
  | None => Some (ip, 0, s)
  end.

(** [exp?] *)
Definition exponent_part (s : jsstring) : option (Z * jsstring) :=
  let marker :=
    match eat 101 s with
    | Some r => Some r
    | None => eat 69 s
    end in
  match marker with
  | Some r =>
      let '(minus, r') := optional_sign r in
      let '(e, ne, r'') := digits r' 0 0%nat in
      if (ne =? 0)%nat then None
      else Some (if minus then - e else e, r'')
  | None => Some (0, s)
  end.

(** [-? int frac? exp?]; a leading zero is the whole integer part, and a
    fraction or an exponent needs at least one digit. *)
Definition number (s : jsstring) : option (num * jsstring) :=
  let '(negative, s1) := optional_minus s in
  let '(ip, ni, r1) := digits s1 0 0%nat in
  if (ni =? 0)%nat || (starts_with [48%N] s1 && (1 <? ni)%nat) then None
  else
    match fraction_part ip r1 with
    | None => None
    | Some (m, nf, r2) =>
        match exponent_part r2 with
        | None => None
        | Some (e, r3) =>
            let q := scale10 m (e - nf) in
            Some (Fin (if negative then - q else q)%Qc, r3)
        end
    end.

(** [obj[key] = v] on the property list. *)
Fixpoint set_prop (key : jsstring) (v : value) (props : list (jsstring * value))
  : list (jsstring * value) :=
  match props with
  | [] => [(key, v)]
  | (k, w) :: rest =>
      if decide (k = key) then (k, v) :: rest
      else (k, w) :: set_prop key v rest
  end.

Definition literal (word : jsstring) (v : value) (s : jsstring) : parsed value :=
  if starts_with word s then Parsed v (drop (length word) s) else Invalid.

Fixpoint parse_value (fuel : nat) (s : jsstring) : parsed value :=
  match fuel with
  | O => OutOfFuel
  | S fuel' =>
      match skip_ws s with
      | [] => Invalid
      | c :: r =>
          if (c =? 123)%N then
            match eat 125 (skip_ws r) with
            | Some r' => Parsed (VObj []) r'
            | None => parse_members fuel' r []
            end
          else if (c =? 91)%N then
            match eat 93 (skip_ws r) with
            | Some r' => Parsed (VArr []) r'
            | None => parse_elements fuel' r []
            end
          else if (c =? 34)%N then
            match string_body r [] with
            | Some (str, r') => Parsed (VStr str) r'
            | None => Invalid
            end
          else if (c =? 116)%N then literal (js "true") (VBool true) (c :: r)
          else if (c =? 102)%N then literal (js "false") (VBool false) (c :: r)
          else if (c =? 110)%N then literal (js "null") VNull (c :: r)
          else
            match number (c :: r) with
            | Some (x, r') => Parsed (VNum x) r'
            | None => Invalid
            end
      end
  end
with parse_elements (fuel : nat) (s : jsstring) (acc : list value)
  : parsed value :=
  match fuel with
  | O => OutOfFuel
  | S fuel' =>
      match parse_value fuel' s with
      | Parsed v r =>
          match eat 44 (skip_ws r) with
          | Some r' => parse_elements fuel' r' (v :: acc)
          | None =>
              match eat 93 (skip_ws r) with
              | Some r' => Parsed (VArr (rev (v :: acc))) r'
              | None => Invalid
              end
          end
      | Invalid => Invalid
      | OutOfFuel => OutOfFuel
      end
  end
with parse_members (fuel : nat) (s : jsstring) (acc : list (jsstring * value))
  : parsed value :=
  match fuel with
  | O => OutOfFuel
  | S fuel' =>
      match eat 34 (skip_ws s) with
      | Some r =>
          match string_body r [] with
          | Some (key, r1) =>
              match eat 58 (skip_ws r1) with
              | Some r2 =>
                  match parse_value fuel' r2 with
                  | Parsed v r3 =>
                      match eat 44 (skip_ws r3) with
                      | Some r4 =>
                          parse_members fuel' r4 (set_prop key v acc)
                      | None =>
                          match eat 125 (skip_ws r3) with
                          | Some r4 => Parsed (VObj (set_prop key v acc)) r4
                          | None => Invalid
                          end
                      end
                  | Invalid => Invalid
                  | OutOfFuel => OutOfFuel
                  end
              | None => Invalid
              end
          | None => Invalid
          end
      | None => Invalid
      end
  end.

(** Enough fuel for any text of that length (see [parse_value_fuel]). *)
Definition fuel_for (text : jsstring) : nat := (2 * length text + 1)%nat.

Definition JSON_parse (text : jsstring) : outcome value :=
  match parse_value (fuel_for text) text with
  | Parsed v rest =>
      match skip_ws rest with
      | [] => Return v
      | _ :: _ => Throw SyntaxError
      end
  | Invalid => Throw SyntaxError
  | OutOfFuel => Throw SyntaxError
  end.

End Parse.

Export Parse.

(** ** The state codec (lib/url-state.ts) *)

Module Codec.

Record ReceiptState : Type := {
  items : list LineItem;
  taxRate : jsstring;
  discountType : DiscountType;
  discountValue : jsstring
}.

Definition DiscountType_value (dt : DiscountType) : value :=
  match dt with
  | percentage => VStr (js "percentage")
  | amount => VStr (js "amount")
  end.

(** A [LineItem] object, with its properties in the order of the literals
    that create it. *)
Definition LineItem_value (it : LineItem) : value :=
  VObj [ (js "name", VStr (name it)); (js "price", VNum (price it));
         (js "category", VStr (category it));
         (js "taxable", VBool (taxable it)) ].

Definition ReceiptState_value (state : ReceiptState) : value :=
  VObj [ (js "items", VArr (LineItem_value <$> items state));
         (js "taxRate", VStr (taxRate state));
         (js "discountType", DiscountType_value (discountType state));
         (js "discountValue", VStr (discountValue state)) ].

(** [btoa(JSON.stringify(state))] *)
Definition encodeState (state : ReceiptState) : outcome jsstring :=
  btoa (JSON_stringify (ReceiptState_value state)).

(** [try { return JSON.parse(atob(encoded)); } catch (e) { ...; return null; }]
    The result is whatever [JSON.parse] yields: the return type is a
    TypeScript annotation and nothing inspects the value. *)
Definition decodeState (encoded : jsstring) : outcome value :=
  try_catch (and_then (atob encoded) JSON_parse)
            (fun _ => Return VNull).

End Codec.

Export Codec.

(** ** Definitions used in the statements *)

(** The sum of a list of numbers. *)
Definition num_sum (l : list num) : num := foldr Num.add zero l.

(** The items of one category, in order. *)
Definition in_category (c : jsstring) (items : list LineItem) : list LineItem :=
  filter (fun it => category it = c) items.

(** The entry the first pass leaves for a category with items [l]. *)
Definition group_entry (l : list LineItem) : option CategoryTotal :=
  match l with
  | [] => None
  | _ :: _ =>
      Some {| subtotal := num_sum (price <$> l);
              discount := zero; tax := zero; total := zero |}
  end.

(** The sum of one field over all entries, as the footer row computes it with
    [Object.values(categoryTotals).reduce((sum, val) => sum + val.f, 0)]. *)
Definition sum_field (f : CategoryTotal -> num) (m : CategoryTotals) : num :=
  foldl (fun sum val => (sum + f val)%num) zero (Object_values m).

(** Items whose category survives the first pass. *)
Definition kept (items : list LineItem) : list LineItem :=
  filter (fun it => inherited (category it) = false) items.

(** One item whose category is a property name of [Object.prototype]. *)
Definition C4_items : list LineItem := [item "Hammer" 5 "constructor" false].

(** One taxable item. *)
Definition C2_items : list LineItem := [item "Milk" 3 "Grocery" true].

(** The row the application starts with: no name, price 0, no category. *)
Definition EMPTY_ITEM : LineItem :=
  {| name := []; price := zero; category := []; taxable := false |}.

(** Two categories with subtotals 80 and 20. *)
Definition two_categories : list LineItem :=
  [item "a" 80 "A" true; item "b" 20 "B" false].

(** Two categories, the first with a taxable and a non-taxable item. *)
Definition three_items : list LineItem :=
  [item "Milk" 3 "Grocery" true; item "Bread" 2 "Grocery" false;
   item "Soap" 4 "Home" true].

(** The entry of a category in a result, for stating concrete instances. *)
Definition entry (m : CategoryTotals) (c : string) : CategoryTotal :=
  default fresh_entry (m !! js c).

(** What one item adds to the tax of its category. *)
Definition item_tax (rate sub disc : num) (it : LineItem) : num :=
  if taxable it
  then ((price it - price it / sub * disc) * rate)%num
  else zero.

(** A finite value above zero. *)
Definition positive (x : num) : Prop :=
  match x with Fin a => (0 < a)%Qc | _ => False end.







(** One taxable item of price 10. *)
Definition C8_items : list LineItem := [item "Milk" 10 "Grocery" true].




(** Equality of values, decided by evaluation. *)
Fixpoint value_eqb (a b : value) : bool :=
  match a, b with
  | VNull, VNull => true
  | VBool x, VBool y => Bool.eqb x y
  | VNum x, VNum y => Num.eqb x y
  | VStr x, VStr y => bool_decide (x = y)
  | VArr xs, VArr ys =>
      (fix all2 (xs ys : list value) : bool :=
         match xs, ys with
         | [], [] => true
         | x :: xs', y :: ys' => value_eqb x y && all2 xs' ys'
         | _, _ => false
         end) xs ys
  | VObj ps, VObj qs =>
      (fix all2 (ps qs : list (jsstring * value)) : bool :=
         match ps, qs with
         | [], [] => true
         | p :: ps', q :: qs' =>
             bool_decide (fst p = fst q) && value_eqb (snd p) (snd q)
             && all2 ps' qs'
         | _, _ => false
         end) ps qs
  | _, _ => false
  end.

Definition outcome_eqb (a b : outcome value) : bool :=
  match a, b with
  | Return x, Return y => value_eqb x y
  | Throw _, Throw _ => true
  | _, _ => false
  end.

(** [obj[key]] on the property list. *)
Fixpoint get_prop (key : jsstring) (props : list (jsstring * value))
  : option value :=
  match props with
  | [] => None
  | (k, v) :: rest => if decide (k = key) then Some v else get_prop key rest
  end.

Definition is_LineItem (v : value) : bool :=
  match v with
  | VObj props =>
      match get_prop (js "name") props, get_prop (js "price") props,
            get_prop (js "category") props, get_prop (js "taxable") props with
      | Some (VStr _), Some (VNum _), Some (VStr _), Some (VBool _) => true
      | _, _, _, _ => false
      end
  | _ => false
  end.

Definition is_DiscountType (v : value) : bool :=
  match v with
  | VStr s => bool_decide (s = js "percentage") || bool_decide (s = js "amount")
  | _ => false
  end.

(** The value is an object with the four properties of [ReceiptState], each
    of its declared type; other properties are allowed. *)
Definition is_ReceiptState (v : value) : bool :=
  match v with
  | VObj props =>
      match get_prop (js "items") props, get_prop (js "taxRate") props,
            get_prop (js "discountType") props,
            get_prop (js "discountValue") props with
      | Some (VArr elems), Some (VStr _), Some dt, Some (VStr _) =>
          forallb is_LineItem elems && is_DiscountType dt
      | _, _, _, _ => false
      end
  | _ => false
  end.

(** C9 as the specification states it: every input gives null or a
    well-formed state. *)
Definition C9_as_stated : Prop :=
  forall encoded : jsstring,
    exists v, decodeState encoded = Return v
              /\ (v = VNull \/ is_ReceiptState v = true).

(** The computation ends in an exception. *)
Definition throws {A} (x : outcome A) : Prop :=
  match x with Throw _ => True | Return _ => False end.

(** The name is the two code units of U+65E5 U+672C. *)
Definition C1_state : ReceiptState :=
  {| Codec.items :=
       [ {| name := [26085; 26412]%N; price := Fin (Q2Qc 3);
            category := js "Grocery"; taxable := true |} ];
     Codec.taxRate := js "10";
     Codec.discountType := percentage;
     Codec.discountValue := [] |}.

(** [decodeState (encodeState state)] is [state], decided by evaluation. *)
Definition round_trips (state : ReceiptState) : bool :=
  match encodeState state with
  | Return encoded =>
      outcome_eqb (decodeState encoded) (Return (ReceiptState_value state))
  | Throw _ => false
  end.

(** A state with ASCII and Latin-1 text and a fractional price. *)
Definition latin1_state : ReceiptState :=
  {| Codec.items :=
       [ item "Milk" 3 "Grocery" true;
         {| name := [67; 97; 102; 233]%N; price := Fin (Q2Qc (249 # 100));
            category := []; taxable := false |} ];
     Codec.taxRate := js "8.25";
     Codec.discountType := amount;
     Codec.discountValue := js "5" |}.

(** No items, empty tax rate and discount strings. *)
Definition empty_state : ReceiptState :=
  {| Codec.items := []; Codec.taxRate := []; Codec.discountType := percentage;
     Codec.discountValue := [] |}.

(** The 6-bit groups that [btoa] writes, without the padding. *)
Fixpoint sextets (bytes : list N) : list N :=
  match bytes with
  | [] => []
  | [a] => [a / 4; a mod 4 * 16]%N
  | [a; b] => [a / 4; a mod 4 * 16 + b / 16; b mod 16 * 4]%N
  | a :: b :: c :: rest =>
      [a / 4; a mod 4 * 16 + b / 16; b mod 16 * 4 + c / 64; c mod 64]%N
      ++ sextets rest
  end.

(** How many [=] follow them. *)
Fixpoint padding (bytes : list N) : nat :=
  match bytes with
  | [] => 0
  | [_] => 2
  | [_; _] => 1
  | _ :: _ :: _ :: rest => padding rest
  end%nat.

(** The text of a price reads back as the price when a comma follows it. *)
Definition price_round_trips (x : num) : bool :=
  match Parse.number (number_json x ++ [44%N]) with
  | Some (y, r) => Num.eqb x y && bool_decide (r = [44%N])
  | None => false
  end.

(** Every code unit is at most U+00FF. *)
Definition latin1 (s : jsstring) : Prop := Forall (fun c => (c <= 255)%N) s.

(** An item whose strings stay within U+0000..U+00FF and whose price reads
    back. *)
Definition item_ok (it : LineItem) : Prop :=
  latin1 (name it) /\ latin1 (category it)
  /\ price_round_trips (price it) = true.

(** A state that [encodeState] can encode and [decodeState] reads back. *)
Definition encodable (state : ReceiptState) : Prop :=
  latin1 (Codec.taxRate state) /\ latin1 (Codec.discountValue state)
  /\ Forall item_ok (Codec.items state).

(** ** The item rows of the application (App.tsx)

    The component keeps its rows in [items] and its category registry in
    [categories]; its effects and event handlers are modelled as functions on
    these two pieces of state.  An updater passed to [setItems] is applied to
    the rows the handler was created with. *)

Module Rows.

(** ToBoolean of a string: only the empty string is falsy. *)
Definition nonempty (s : jsstring) : bool :=
  match s with
  | [] => false
  | _ :: _ => true
  end.

(** [item.name || item.price || item.category || item.taxable], used as a
    condition. *)
Definition has_content (item : LineItem) : bool :=
  nonempty (name item) || truthy (price item) || nonempty (category item)
  || taxable item.

(** [!lastItem.name && !lastItem.price && !lastItem.category &&
    !lastItem.taxable] *)
Definition isLastItemEmpty (lastItem : LineItem) : bool :=
  negb (nonempty (name lastItem)) && negb (truthy (price lastItem))
  && negb (nonempty (category lastItem)) && negb (taxable lastItem).

(** What running an effect gives: the rows it leaves, or the TypeError of a
    property read on [undefined]. *)
Inductive run (A : Type) : Type :=
  | Done (a : A)
  | TypeError.

Arguments Done {A} a.
Arguments TypeError {A}.

(** The effect that keeps an empty row at the end.  On an empty array
    [items[items.length - 1]] is [undefined], and reading [lastItem.name]
    throws. *)
Definition ensure_empty_row (items : list LineItem) : run (list LineItem) :=
  match last items with
  | None => TypeError
  | Some lastItem =>
      if negb (isLastItemEmpty lastItem) then Done (items ++ [EMPTY_ITEM])
      else Done items
  end.

(** The rows the second effect hands to [updateUrl]:
    [items.filter(item => item.name || item.price || item.category ||
    item.taxable)]. *)
Definition url_items (items : list LineItem) : list LineItem :=
  filter (fun item => has_content item = true) items.

(** [handleImportedItems]: [prev.slice(0, -1)], the imported items, and a new
    empty row. *)
Definition handleImportedItems (importedItems prev : list LineItem)
  : list LineItem :=
  let currentItems := take (length prev - 1) prev in
  currentItems ++ importedItems ++ [EMPTY_ITEM].

(** [l.filter((_, i) => keep(i))], with [i] counted from [start]. *)
Fixpoint filter_index {A : Type} (keep : nat -> bool) (start : nat)
    (l : list A) : list A :=
  match l with
  | [] => []
  | x :: r =>
      if keep start then x :: filter_index keep (S start) r
      else filter_index keep (S start) r
  end.

(** [handleDeleteItem]: [!lastItem] holds when [newItems] is empty. *)
Definition handleDeleteItem (index : nat) (prev : list LineItem)
  : list LineItem :=
  let newItems := filter_index (fun i => negb (i =? index)%nat) 0 prev in
  match last newItems with
  | None => newItems ++ [EMPTY_ITEM]
  | Some lastItem =>
      if has_content lastItem then newItems ++ [EMPTY_ITEM] else newItems
  end.

(** The [field] and [value] of a call of [handleItemChange], as the four
    inputs of a row pass them: the text of the name, price and category
    inputs, and the state of the check box. *)
Inductive change : Type :=
  | Name (value : jsstring)
  | Price (value : jsstring)
  | Category (value : jsstring)
  | Taxable (value : bool).

Section builtins.

(** [Number(value)] on a string and [String.prototype.toLowerCase] are not
    modelled; what follows holds for every function in their place. *)
Variable Number : jsstring -> num.
Variable toLowerCase : jsstring -> jsstring.

(** [{ ...items[index], [field]: value }], the price being
    [value === '' ? 0 : Number(value)]. *)
Definition updated (item : LineItem) (c : change) : LineItem :=
  match c with
  | Name value =>
      {| name := value; price := price item; category := category item;
         taxable := taxable item |}
  | Price value =>
      {| name := name item;
         price := if nonempty value then Number value else zero;
         category := category item; taxable := taxable item |}
  | Category value =>
      {| name := name item; price := price item; category := value;
         taxable := taxable item |}
  | Taxable value =>
      {| name := name item; price := price item; category := category item;
         taxable := value |}
  end.

(** The registry after a change:
    [field === 'category' && typeof value === 'string' && value &&
    !categories.includes(value)] appends the value. *)
Definition registered (c : change) (categories : list jsstring)
  : list jsstring :=
  match c with
  | Category value =>
      if nonempty value && negb (bool_decide (value ∈ categories))
      then categories ++ [value]
      else categories
  | _ => categories
  end.

(** [handleItemChange] on the rows and the registry.  The inputs that call
    it belong to a row, so [index] is in range; out of range the source
    stores an object that has only the changed field, which is no
    [LineItem], and the model gives [None]. *)
Definition handleItemChange (index : nat) (c : change)
    (state : list LineItem * list jsstring)
  : option (list LineItem * list jsstring) :=
  match state.1 !! index with
  | Some item =>
      Some (<[index := updated item c]> state.1, registered c state.2)
  | None => None
  end.

(** [hay.includes(needle)] on strings. *)
Fixpoint includes (needle hay : jsstring) : bool :=
  starts_with needle hay
  || match hay with
     | [] => false
     | _ :: r => includes needle r
     end.

(** [categories.filter(cat =>
    cat.toLowerCase().includes(value.toLowerCase()))] *)
Definition getCategorySuggestions (categories : list jsstring)
    (value : jsstring) : list jsstring :=
  filter (fun cat => includes (toLowerCase value) (toLowerCase cat) = true)
    categories.

End builtins.

End Rows.

Export Rows.

(** ** Reading items off scanned text (components/ReceiptScanner.tsx) *)

Module Scanner.

(** [text.split('\n')] *)
Fixpoint split_lines (text : jsstring) : list jsstring :=
  match text with
  | [] => [[]]
  | c :: r =>
      if (c =? 10)%N then [] :: split_lines r
      else
        match split_lines r with
        | line :: lines => (c :: line) :: lines
        | [] => [[c]]
        end
  end.

(** [String.prototype.trim]: white space and line terminators go from both
    ends; they are the code units [parseFloat] skips. *)
Definition trim (s : jsstring) : jsstring :=
  rev (skip_white (rev (skip_white s))).

Definition is_digit (c : N) : bool := ((48 <=? c) && (c <=? 57))%N.

(** The longest run of digits at the front, and what follows it. *)
Fixpoint span_digits (s : jsstring) : jsstring * jsstring :=
  match s with
  | c :: r =>
      if is_digit c
      then let '(ds, rest) := span_digits r in (c :: ds, rest)
      else ([], s)
  | [] => ([], [])
  end.

(** The text [/\$?\d+\.\d{2}/] matches at the front of [s].  Backtracking
    finds nothing the greedy choices miss: without the [$] the next unit is
    the [$] itself and no digit, and after fewer digits the next unit is a
    digit and no dot. *)
Definition match_price_here (s : jsstring) : option jsstring :=
  let '(dollar, s1) :=
    match eat 36 s with
    | Some r => ([36%N], r)
    | None => ([], s)
    end in
  let '(ds, s2) := span_digits s1 in
  match ds, eat 46 s2 with
  | _ :: _, Some (a :: b :: _) =>
      if is_digit a && is_digit b then Some (dollar ++ ds ++ [46%N; a; b])
      else None
  | _, _ => None
  end.

(** [s.match(priceRegex)]: the leftmost match, as its [index] (counted from
    [index] at the front of [s]) and its text. *)
Fixpoint match_price (s : jsstring) (index : nat) : option (nat * jsstring) :=
  match match_price_here s with
  | Some m => Some (index, m)
  | None =>
      match s with
      | [] => None
      | _ :: r => match_price r (S index)
      end
  end.

(** [s.replace('$', '')]: the first [$] goes. *)
Fixpoint remove_dollar (s : jsstring) : jsstring :=
  match s with
  | [] => []
  | c :: r => if (c =? 36)%N then r else c :: remove_dollar r
  end.

(** The body of [lines.forEach]: the item a line gives, if any. *)
Definition scan_line (line : jsstring) : option LineItem :=
  let trimmedLine := trim line in
  if negb (nonempty trimmedLine) then None
  else
    match match_price trimmedLine 0 with
    | None => None
    | Some (index, priceMatch) =>
        let price := parseFloat (remove_dollar priceMatch) in
        if is_nan price then None
        else
          let name := trim (take index trimmedLine) in
          if negb (nonempty name) then None
          else Some {| name := name; price := price; category := [];
                       taxable := false |}
    end.

(** The [items] that the recognised text gives. *)
Definition scan (text : jsstring) : list LineItem :=
  omap scan_line (split_lines text).

End Scanner.

Export Scanner.

(** The value [digits] reads off a run of digits [ds] on top of [acc]; the
    cents of a scanned price are stated with it. *)
Definition digits_value (ds : jsstring) (acc : Z) : Z :=
  foldl (fun acc c => 10 * acc + (Z.of_N c - 48)) acc ds.

(** ** The engine over another arithmetic

    [computeTotals] once more, with the four operations and [parseFloat]
    taken as parameters.  With the exact operations it is [computeTotals]
    itself ([computeTotals_exact]); with the operations of [Binary64] it
    runs as the code does on IEEE 754 doubles. *)

Module Arithmetic.

Section engine.
Variables add sub mul div : num -> num -> num.
Variable parse : jsstring -> num.

Definition add_to_subtotal (p : num) (t : CategoryTotal) : CategoryTotal :=
  {| subtotal := add (subtotal t) p;
     discount := discount t; tax := tax t; total := total t |}.

Definition accumulate (totals : CategoryTotals) (item : LineItem)
  : CategoryTotals :=
  let totals' :=
    if negb (has_truthy totals (category item))
    then <[category item := fresh_entry]> totals
    else totals in
  alter (add_to_subtotal (price item)) (category item) totals'.

Definition subtotals (items : list LineItem) : CategoryTotals :=
  foldl accumulate ∅ items.

Definition totalSubtotal (totals : CategoryTotals) : num :=
  foldl (fun sum val => add sum (subtotal val)) zero (Object_values totals).

Section second_pass.
Variable items : list LineItem.
Variable discountType : DiscountType.
Variables rate dValue total_subtotal : num.

Definition category_discount (t : CategoryTotal) : num :=
  match discountType with
  | percentage => mul (subtotal t) (div dValue hundred)
  | amount => mul dValue (div (subtotal t) total_subtotal)
  end.

Definition tax_step (subt disc : num) (sum : num) (item : LineItem) : num :=
  let itemDiscount := mul (div (price item) subt) disc in
  add sum (mul (sub (price item) itemDiscount) rate).

Definition category_tax (cat : jsstring) (subt disc : num) : num :=
  foldl (tax_step subt disc) zero (taxable_in items cat).

Definition settled (cat : jsstring) (t : CategoryTotal) : CategoryTotal :=
  let disc := category_discount t in
  let afterDiscount := sub (subtotal t) disc in
  let tx := category_tax cat (subtotal t) disc in
  {| subtotal := subtotal t; discount := disc; tax := tx;
     total := add afterDiscount tx |}.

Definition settle (totals : CategoryTotals) (cat : jsstring)
  : CategoryTotals :=
  match totals !! cat with
  | Some t => <[cat := settled cat t]> totals
  | None => totals
  end.
End second_pass.

Definition computeTotals (items : list LineItem) (taxRate : jsstring)
    (discountType : DiscountType) (discountValue : jsstring)
  : CategoryTotals :=
  let rate := div (parse taxRate) hundred in
  let dValue := or_else (parse discountValue) zero in
  let totals := subtotals items in
  let total_subtotal := totalSubtotal totals in
  foldl (settle items discountType rate dValue total_subtotal)
        totals (Object_keys totals).

End engine.

End Arithmetic.

(** ** binary64

    The operations of IEEE 754 binary64, round to nearest with ties to even,
    as the Standard Library specifies them ([SpecFloat], precision 53,
    [emax] 1024).  A value stays a [num]: a finite double is the rational it
    denotes, and the sign of a zero is dropped. *)

Module Binary64.

(** The double nearest to [x]: the correctly rounded quotient of the
    numerator by the denominator. *)
Definition to_float (x : num) : SpecFloat.spec_float :=
  match x with
  | Fin q =>
      let den := SpecFloat.S754_finite false (Qden q) 0 in
      match Qnum q with
      | Z0 => SpecFloat.S754_zero false
      | Zpos n =>
          SpecFloat.SFdiv 53 1024 (SpecFloat.S754_finite false n 0) den
      | Zneg n =>
          SpecFloat.SFdiv 53 1024 (SpecFloat.S754_finite true n 0) den
      end
  | PInf => SpecFloat.S754_infinity false
  | NInf => SpecFloat.S754_infinity true
  | NaN => SpecFloat.S754_nan
  end.

(** The rational [(-1)^s * m * 2^e]. *)
Definition of_float (f : SpecFloat.spec_float) : num :=
  match f with
  | SpecFloat.S754_zero _ => zero
  | SpecFloat.S754_infinity s => if s then NInf else PInf
  | SpecFloat.S754_nan => NaN
  | SpecFloat.S754_finite s m e =>
      let n := if s then Zneg m else Zpos m in
      Fin (if (0 <=? e)%Z then Qc_of_Z (n * 2 ^ e)
           else Q2Qc (Qmake n (Z.to_pos (2 ^ (- e)))))
  end.

Definition round (x : num) : num := of_float (to_float x).

Definition add (x y : num) : num :=
  of_float (SpecFloat.SFadd 53 1024 (to_float x) (to_float y)).

Definition sub (x y : num) : num :=
  of_float (SpecFloat.SFsub 53 1024 (to_float x) (to_float y)).

Definition mul (x y : num) : num :=
  of_float (SpecFloat.SFmul 53 1024 (to_float x) (to_float y)).

Definition div (x y : num) : num :=
  of_float (SpecFloat.SFdiv 53 1024 (to_float x) (to_float y)).

(** [parseFloat]: the double nearest to the value of the literal. *)
Definition parseFloat (input : jsstring) : num :=
  round (ParseFloat.parseFloat input).

(** [computeTotals] as it runs on doubles. *)
Definition computeTotals : list LineItem -> jsstring -> DiscountType ->
                           jsstring -> CategoryTotals :=
  Arithmetic.computeTotals add sub mul div parseFloat.

(** An item with ASCII text whose price is the double nearest to [p]. *)
Definition item (n : string) (p : Q) (c : string) (t : bool) : LineItem :=
  {| name := js n; price := round (Fin (Q2Qc p)); category := js c;
     taxable := t |}.

End Binary64.

(** [x < 0] as JavaScript evaluates it. *)
Definition is_negative (x : num) : bool :=
  match x with
  | Fin a => is_neg a
  | NInf => true
  | PInf | NaN => false
  end.



(** * Properties *)

(** ** Arithmetic of [num] *)

Section num_facts.
Implicit Types (x y z : num) (a b : Qc).

Lemma is_zero_spec a : is_zero a = true <-> a = 0%Qc.
Proof.
  unfold is_zero. rewrite Z.eqb_eq. split.
  - intros H. apply Qc_is_canon. unfold Qeq. simpl. rewrite H. reflexivity.
  - intros ->. reflexivity.
Qed.

Lemma is_pos_spec a : is_pos a = true <-> (0 < a)%Qc.
Proof.
  unfold is_pos, Qclt, Qlt. rewrite Z.ltb_lt. simpl. lia.
Qed.

Lemma is_neg_spec a : is_neg a = true <-> (a < 0)%Qc.
Proof.
  unfold is_neg, Qclt, Qlt. rewrite Z.ltb_lt. simpl. lia.
Qed.

Lemma is_zero_false a : is_zero a = false <-> a <> 0%Qc.
Proof.
  rewrite <- is_zero_spec. destruct (is_zero a); split; congruence.
Qed.

Lemma eqb_eq x y : Num.eqb x y = true -> x = y.
Proof.
  destruct x, y; simpl; try discriminate; try reflexivity.
  intros H. f_equal. apply Qc_is_canon. by apply Qeq_bool_iff.
Qed.

Lemma add_comm x y : (x + y)%num = (y + x)%num.
Proof. destruct x, y; simpl; try reflexivity. by rewrite Qcplus_comm. Qed.

Lemma add_assoc x y z : (x + (y + z))%num = (x + y + z)%num.
Proof. destruct x, y, z; simpl; try reflexivity. by rewrite Qcplus_assoc. Qed.

Lemma add_zero_l x : (zero + x)%num = x.
Proof. destruct x; simpl; try reflexivity. by rewrite Qcplus_0_l. Qed.

Lemma add_zero_r x : (x + zero)%num = x.
Proof. rewrite add_comm. apply add_zero_l. Qed.

Lemma add_finite x y a :
  (x + y)%num = Fin a -> exists b c, x = Fin b /\ y = Fin c /\ a = (b + c)%Qc.
Proof.
  destruct x, y; simpl; try discriminate. intros [= <-]. eauto.
Qed.
End num_facts.

Lemma num_sum_cons (x : num) (l : list num) :
  num_sum (x :: l) = (x + num_sum l)%num.
Proof. reflexivity. Qed.

Lemma foldl_add_from (l : list num) (acc : num) :
  foldl Num.add acc l = (acc + num_sum l)%num.
Proof.
  revert acc. induction l as [|v l IH]; intros acc; simpl.
  - by rewrite add_zero_r.
  - by rewrite IH, add_assoc.
Qed.

Lemma foldl_add_sum (l : list num) : foldl Num.add zero l = num_sum l.
Proof. by rewrite foldl_add_from, add_zero_l. Qed.

Lemma num_sum_app (l k : list num) :
  num_sum (l ++ k) = (num_sum l + num_sum k)%num.
Proof.
  induction l as [|v l IH].
  - symmetry. apply add_zero_l.
  - cbn [app num_sum foldr]. fold (num_sum (l ++ k)). fold (num_sum l).
    by rewrite IH, add_assoc.
Qed.

Lemma num_sum_perm (l k : list num) : l ≡ₚ k -> num_sum l = num_sum k.
Proof.
  induction 1 as [|v l k _ IH|v w l|l k m _ IH1 _ IH2]; simpl.
  - reflexivity.
  - by rewrite IH.
  - by rewrite !add_assoc, (add_comm v w).
  - by rewrite IH1.
Qed.

Lemma foldl_map_add {A} (f : A -> num) (l : list A) (acc : num) :
  foldl (fun sum v => (sum + f v)%num) acc l = foldl Num.add acc (f <$> l).
Proof. revert acc. induction l as [|v l IH]; intros acc; simpl; auto. Qed.

Lemma num_sum_finite (l : list num) (a : Qc) :
  num_sum l = Fin a -> Forall (fun v => is_finite v = true) l.
Proof.
  revert a. induction l as [|v l IH]; intros a; simpl; [constructor|].
  intros H. apply add_finite in H as (b & c & -> & Hc & _).
  constructor; [reflexivity | by eapply IH].
Qed.

(** ** The two passes of [computeTotals], entry by entry *)

Lemma group_entry_snoc (l : list LineItem) (it : LineItem) :
  group_entry (l ++ [it])
  = Some (add_to_subtotal (price it) (default fresh_entry (group_entry l))).
Proof.
  destruct l as [|x l]; unfold add_to_subtotal; cbn -[num_sum Num.add zero].
  - f_equal. f_equal. unfold num_sum; cbn [foldr].
    by rewrite add_zero_l, add_zero_r.
  - f_equal. f_equal.
    change (num_sum (price <$> ((x :: l) ++ [it]))
            = (num_sum (price <$> x :: l) + price it)%num).
    rewrite fmap_app, num_sum_app. f_equal.
    unfold num_sum; cbn [fmap list_fmap foldr]. apply add_zero_r.
Qed.

Lemma accumulate_lookup_ne (m : CategoryTotals) (it : LineItem) (c : jsstring) :
  category it <> c -> accumulate m it !! c = m !! c.
Proof.
  intros Hne. unfold accumulate. rewrite lookup_alter_ne by done.
  destruct (negb _); [by rewrite lookup_insert_ne|done].
Qed.

Lemma accumulate_lookup_eq (m : CategoryTotals) (it : LineItem) :
  accumulate m it !! category it
  = match m !! category it with
    | Some t => Some (add_to_subtotal (price it) t)
    | None =>
        if inherited (category it) then None
        else Some (add_to_subtotal (price it) fresh_entry)
    end.
Proof.
  unfold accumulate, has_truthy. rewrite lookup_alter_eq.
  destruct (m !! category it) as [t|] eqn:Hm; cbn [negb].
  - by rewrite Hm.
  - destruct (inherited (category it)); cbn [negb].
    + by rewrite Hm.
    + by rewrite lookup_insert_eq.
Qed.

(** After the first pass a category has an entry exactly when some item
    carries it and its name is not one that [Object.prototype] defines. *)
Lemma subtotals_lookup (items : list LineItem) (c : jsstring) :
  subtotals items !! c
  = if inherited c then None else group_entry (in_category c items).
Proof.
  unfold subtotals. induction items as [|it items IH] using rev_ind.
  - cbn. rewrite lookup_empty. by destruct (inherited c).
  - rewrite foldl_snoc. unfold in_category in *. rewrite filter_app.
    destruct (decide (category it = c)) as [<-|Hne].
    + rewrite accumulate_lookup_eq, IH.
      rewrite (filter_cons_True _ it []) by done. rewrite filter_nil.
      rewrite group_entry_snoc.
      destruct (inherited (category it)); [done|].
      by destruct (group_entry _).
    + rewrite accumulate_lookup_ne, IH by done.
      rewrite (filter_cons_False _ it []) by done.
      by rewrite filter_nil, app_nil_r.
Qed.

Section settle_facts.
Variable items : list LineItem.
Variable dt : DiscountType.
Variables rate dValue T : num.

Let step := settle items dt rate dValue T.

Lemma settle_lookup (m : CategoryTotals) (k c : jsstring) :
  step m k !! c
  = if decide (k = c) then settled items dt rate dValue T c <$> m !! c
    else m !! c.
Proof.
  unfold step, settle. destruct (decide (k = c)) as [->|Hne].
  - destruct (m !! c) as [t|] eqn:Hm; [by rewrite lookup_insert_eq|by rewrite Hm].
  - destruct (m !! k); [by rewrite lookup_insert_ne|done].
Qed.

Lemma foldl_settle_lookup (ks : list jsstring) (m : CategoryTotals)
    (c : jsstring) :
  NoDup ks ->
  foldl step m ks !! c
  = if decide (c ∈ ks) then settled items dt rate dValue T c <$> m !! c
    else m !! c.
Proof.
  intros Hnd. revert m.
  induction Hnd as [|k ks Hk Hnd IH]; intros m; cbn [foldl].
  - rewrite decide_False; [done|]. apply not_elem_of_nil.
  - rewrite IH, settle_lookup.
    destruct (decide (k = c)) as [->|Hne].
    + rewrite decide_False by done.
      rewrite decide_True; [done|]. apply elem_of_cons; auto.
    + destruct (decide (c ∈ ks)) as [Hin|Hin].
      * rewrite decide_True; [done|]. apply elem_of_cons; auto.
      * rewrite decide_False; [done|].
        rewrite elem_of_cons. intros [?|?]; congruence.
Qed.

Lemma settle_all_lookup (m : CategoryTotals) (c : jsstring) :
  foldl step m (Object_keys m) !! c
  = settled items dt rate dValue T c <$> m !! c.
Proof.
  rewrite foldl_settle_lookup by apply NoDup_fst_map_to_list.
  destruct (decide _) as [Hin|Hin]; [done|].
  destruct (m !! c) as [t|] eqn:Hm; [|done].
  exfalso. apply Hin. unfold Object_keys.
  apply list_elem_of_fmap. exists (c, t). split; [done|].
  by apply elem_of_map_to_list.
Qed.
End settle_facts.

Lemma computeTotals_lookup items taxRate dt discountValue (c : jsstring) :
  computeTotals items taxRate dt discountValue !! c
  = settled items dt (rate_of taxRate) (dValue_of discountValue)
      (totalSubtotal (subtotals items)) c
    <$> subtotals items !! c.
Proof. unfold computeTotals. apply settle_all_lookup. Qed.

(** ** Sums over the totals object *)

Lemma sum_field_num_sum (f : CategoryTotal -> num) (m : CategoryTotals) :
  sum_field f m = num_sum (f <$> Object_values m).
Proof. unfold sum_field. by rewrite foldl_map_add, foldl_add_sum. Qed.

Lemma totalSubtotal_sum_field (m : CategoryTotals) :
  totalSubtotal m = sum_field subtotal m.
Proof. reflexivity. Qed.

Lemma sum_field_empty (f : CategoryTotal -> num) : sum_field f ∅ = zero.
Proof. unfold sum_field, Object_values. by rewrite map_to_list_empty. Qed.

Lemma sum_field_insert (f : CategoryTotal -> num) (m : CategoryTotals) (c : jsstring) (t : CategoryTotal) :
  m !! c = None -> sum_field f (<[c := t]> m) = (f t + sum_field f m)%num.
Proof.
  intros Hm. rewrite !sum_field_num_sum. unfold Object_values.
  rewrite (num_sum_perm _ (f <$> ((c, t) :: map_to_list m).*2)).
  - reflexivity.
  - by rewrite (map_to_list_insert m c t Hm).
Qed.

Lemma sum_field_update (f : CategoryTotal -> num) (m : CategoryTotals) (c : jsstring) (t t' : CategoryTotal) :
  m !! c = Some t ->
  sum_field f m = (f t + sum_field f (delete c m))%num
  /\ sum_field f (<[c := t']> m) = (f t' + sum_field f (delete c m))%num.
Proof.
  intros Hm. split.
  - rewrite <- (insert_delete_id m c t Hm) at 1.
    apply sum_field_insert, lookup_delete_eq.
  - rewrite <- insert_delete_eq. apply sum_field_insert, lookup_delete_eq.
Qed.

(** When every entry of [m'] is the image of the entry of [m] under the same
    key, the entries of [m'] are those of [m], mapped. *)
Lemma map_to_list_pointwise (g : jsstring -> CategoryTotal -> CategoryTotal)
    (m m' : CategoryTotals) :
  (forall c, m' !! c = g c <$> m !! c) ->
  map_to_list m' ≡ₚ (fun p => (p.1, g p.1 p.2)) <$> map_to_list m.
Proof.
  intros Hg. apply NoDup_Permutation.
  - apply NoDup_map_to_list.
  - apply NoDup_fmap_2_strong; [|apply NoDup_map_to_list].
    intros [c t] [c' t'] Hin Hin' [= <- _].
    apply elem_of_map_to_list in Hin, Hin'. congruence.
  - intros [c t']. rewrite elem_of_map_to_list, Hg, list_elem_of_fmap. split.
    + destruct (m !! c) as [t|] eqn:Hm; [|done]. intros [= <-].
      exists (c, t). split; [done|]. by apply elem_of_map_to_list.
    + intros ([c0 t] & [= -> ->] & Hin). apply elem_of_map_to_list in Hin.
      cbn. by rewrite Hin.
Qed.

Lemma sum_field_pointwise (f : CategoryTotal -> num) (g : jsstring -> CategoryTotal -> CategoryTotal)
    (m m' : CategoryTotals) :
  (forall c, m' !! c = g c <$> m !! c) ->
  sum_field f m' = num_sum ((fun p => f (g p.1 p.2)) <$> map_to_list m).
Proof.
  intros Hg. rewrite sum_field_num_sum. unfold Object_values.
  rewrite (num_sum_perm _ (f <$> ((fun p => (p.1, g p.1 p.2)) <$> map_to_list m).*2)).
  - by rewrite <- !list_fmap_compose.
  - by rewrite (map_to_list_pointwise g m m' Hg).
Qed.

Lemma accumulate_cases (m : CategoryTotals) (it : LineItem) :
  accumulate m it
  = match m !! category it with
    | Some t => <[category it := add_to_subtotal (price it) t]> m
    | None =>
        if inherited (category it) then m
        else <[category it := add_to_subtotal (price it) fresh_entry]> m
    end.
Proof.
  apply map_eq. intros c. destruct (decide (category it = c)) as [<-|Hne].
  - rewrite accumulate_lookup_eq.
    destruct (m !! category it) eqn:Hm; [by rewrite lookup_insert_eq|].
    destruct (inherited _); [done|by rewrite lookup_insert_eq].
  - rewrite accumulate_lookup_ne by done.
    destruct (m !! category it); [by rewrite lookup_insert_ne|].
    destruct (inherited _); [done|by rewrite lookup_insert_ne].
Qed.

Lemma sum_subtotal_accumulate (m : CategoryTotals) (it : LineItem) :
  (m !! category it = None -> inherited (category it) = true -> False) ->
  sum_field subtotal (accumulate m it)
  = (sum_field subtotal m + price it)%num.
Proof.
  intros Hok. rewrite accumulate_cases.
  destruct (m !! category it) as [t|] eqn:Hm.
  - destruct (sum_field_update subtotal m _ t
                (add_to_subtotal (price it) t) Hm) as [-> ->].
    cbn [subtotal add_to_subtotal].
    rewrite <- !add_assoc. f_equal. apply add_comm.
  - destruct (inherited (category it)) eqn:Hi; [by destruct Hok|].
    rewrite sum_field_insert by done. cbn [subtotal add_to_subtotal fresh_entry].
    by rewrite add_zero_l, add_comm.
Qed.

(** The subtotals of the first pass add up to the prices of the items that
    were kept. *)
Lemma sum_subtotals_kept (items : list LineItem) :
  sum_field subtotal (subtotals items) = num_sum (price <$> kept items).
Proof.
  unfold subtotals, kept. induction items as [|it items IH] using rev_ind.
  - by rewrite sum_field_empty.
  - rewrite foldl_snoc, filter_app, fmap_app, num_sum_app.
    destruct (inherited (category it)) eqn:Hi.
    + rewrite (filter_cons_False _ it []) by (rewrite Hi; done).
      rewrite filter_nil. cbn [fmap list_fmap].
      change (num_sum []) with zero.
      rewrite add_zero_r, <- IH. f_equal.
      rewrite accumulate_cases.
      pose proof (subtotals_lookup items (category it)) as Hl.
      unfold subtotals in Hl. rewrite Hi in Hl. by rewrite Hl, Hi.
    + rewrite (filter_cons_True _ it []) by done. rewrite filter_nil.
      rewrite sum_subtotal_accumulate by congruence.
      rewrite IH. f_equal. symmetry. apply (add_zero_r (price it)).
Qed.

(** ** Subtotals against item prices *)

Lemma subtotal_settled items dt rate dValue T c t :
  subtotal (settled items dt rate dValue T c t) = subtotal t.
Proof. reflexivity. Qed.

(** The second pass leaves the subtotals alone. *)
Lemma sum_subtotal_computeTotals items taxRate dt discountValue :
  sum_field subtotal (computeTotals items taxRate dt discountValue)
  = totalSubtotal (subtotals items).
Proof.
  rewrite (sum_field_pointwise subtotal _ (subtotals items) _
             (computeTotals_lookup items taxRate dt discountValue)).
  rewrite totalSubtotal_sum_field, sum_field_num_sum. unfold Object_values.
  by rewrite <- list_fmap_compose.
Qed.

(** On item lists that use no name of [Object.prototype] as a category, the
    subtotals in the result add up to the item prices. *)
Lemma sum_subtotal_is_sum_price items taxRate dt discountValue :
  Forall (fun it => inherited (category it) = false) items ->
  sum_field subtotal (computeTotals items taxRate dt discountValue)
  = num_sum (price <$> items).
Proof.
  intros Hall. rewrite sum_subtotal_computeTotals, totalSubtotal_sum_field.
  rewrite sum_subtotals_kept. unfold kept.
  f_equal. f_equal. clear -Hall.
  induction Hall as [|it items Hit _ IH]; [done|].
  by rewrite filter_cons_True, IH.
Qed.

(** C4 (fails on the code).  The claim says that the per-category subtotals
    of the result add up to the item prices.  For an item whose category is
    the name of a property of [Object.prototype], here ["constructor"], the
    first pass finds [totals[item.category]] truthy, creates no entry, and
    adds the price to the inherited object: the result is empty, its subtotals
    add up to 0, and the item prices add up to 5. *)
Theorem C4_inherited_category_is_dropped :
  computeTotals C4_items (js "10") percentage (js "0") = ∅
  /\ sum_field subtotal (computeTotals C4_items (js "10") percentage (js "0"))
     = zero
  /\ num_sum (price <$> C4_items) = Fin (Q2Qc 5).
Proof. repeat split; vm_compute; reflexivity. Qed.

(** ** Missing tax rate *)

Lemma mul_nan_r (x : num) : (x * NaN)%num = NaN.
Proof. by destruct x. Qed.

Lemma add_nan_r (x : num) : (x + NaN)%num = NaN.
Proof. by destruct x. Qed.

Lemma rate_of_nan (taxRate : jsstring) :
  parseFloat taxRate = NaN -> rate_of taxRate = NaN.
Proof. unfold rate_of. by intros ->. Qed.

(** With a rate that is NaN the tax of any category that has a taxable item
    is NaN. *)
Lemma category_tax_nan_rate items c (sub disc : num) :
  taxable_in items c <> [] -> category_tax items NaN c sub disc = NaN.
Proof.
  unfold category_tax. generalize zero.
  induction (taxable_in items c) as [|it l IH] using rev_ind; [done|].
  intros acc _. rewrite foldl_snoc. unfold tax_step at 1.
  by rewrite mul_nan_r, add_nan_r.
Qed.

Lemma tax_nan_without_rate items taxRate dt discountValue c t :
  parseFloat taxRate = NaN ->
  taxable_in items c <> [] ->
  computeTotals items taxRate dt discountValue !! c = Some t ->
  tax t = NaN /\ total t = NaN.
Proof.
  intros Hrate Htaxable. rewrite computeTotals_lookup.
  destruct (subtotals items !! c) as [t0|]; [|done]. intros [= <-].
  cbn [tax total settled]. rewrite (rate_of_nan _ Hrate).
  rewrite category_tax_nan_rate by done. by rewrite add_nan_r.
Qed.

(** C2 (fails on the code).  The claim says that an empty or non-numeric tax
    rate is treated as 0.  [parseFloat(taxRate) / 100] has no [|| 0], unlike
    the discount value next to it: with the empty string the rate is NaN, and
    the tax and the total of a category with a taxable item are NaN, where the
    rate ["0"] gives tax 0 and total 3. *)
Theorem C2_empty_rate_gives_nan_tax :
  parseFloat (js "") = NaN
  /\ tax <$> computeTotals C2_items (js "") percentage (js "") !! js "Grocery"
     = Some NaN
  /\ total <$> computeTotals C2_items (js "") percentage (js "") !! js "Grocery"
     = Some NaN
  /\ tax <$> computeTotals C2_items (js "0") percentage (js "") !! js "Grocery"
     = Some zero
  /\ total <$> computeTotals C2_items (js "0") percentage (js "") !! js "Grocery"
     = Some (Fin (Q2Qc 3)).
Proof. repeat split; vm_compute; reflexivity. Qed.

(** ** Flat discount over a zero total *)

(** C3 (fails on the code).  The claim says that with a total subtotal of 0
    and a flat discount the result holds numbers.  The code divides by
    [totalSubtotal] without a guard: on the single empty row the discount is
    [5 * (0 / 0)], NaN, and so is the total. *)
Theorem C3_zero_total_gives_nan_discount :
  totalSubtotal (subtotals [EMPTY_ITEM]) = zero
  /\ discount <$> computeTotals [EMPTY_ITEM] (js "10") amount (js "5") !! []
     = Some NaN
  /\ total <$> computeTotals [EMPTY_ITEM] (js "10") amount (js "5") !! []
     = Some NaN.
Proof. repeat split; vm_compute; reflexivity. Qed.

(** ** Discounts *)

Lemma dValue_of_finite (discountValue : jsstring) (v : Qc) :
  parseFloat discountValue = Fin v -> dValue_of discountValue = Fin v.
Proof.
  unfold dValue_of, or_else. intros ->. cbn [truthy].
  destruct (is_zero v) eqn:Hz; [|done].
  apply is_zero_spec in Hz. by subst.
Qed.

Lemma hundred_nonzero : is_zero (Qc_of_Z 100) = false.
Proof. reflexivity. Qed.

Lemma num_sum_of_finite (l : list num) :
  Forall (fun s => is_finite s = true) l -> exists b, num_sum l = Fin b.
Proof.
  induction 1 as [|s l Hs _ [b IH]]; [by eexists|].
  destruct s as [a| | |]; try discriminate.
  rewrite num_sum_cons, IH. by eexists.
Qed.

(** A flat amount [v] shared out over finite subtotals in proportion to a
    non-zero total [t]. *)
Lemma shares_sum (l : list num) (v t : Qc) :
  t <> 0%Qc ->
  Forall (fun s => is_finite s = true) l ->
  num_sum ((fun s => Fin v * (s / Fin t))%num <$> l)
  = (Fin v * (num_sum l / Fin t))%num.
Proof.
  intros Ht Hall. apply is_zero_false in Ht.
  induction Hall as [|s l Hs Hl IH].
  - cbn. rewrite Ht. f_equal. unfold Qcdiv. ring.
  - destruct s as [a| | |]; try discriminate.
    rewrite fmap_cons, !num_sum_cons, IH. clear IH.
    destruct (num_sum_of_finite l Hl) as [b ->].
    cbn. rewrite Ht. cbn. f_equal. unfold Qcdiv. ring.
Qed.

(** C5.  With a flat discount whose value parses to [v], over a result whose
    subtotals add up to a strictly positive amount, the discounts of all
    categories add up to [v] (arithmetic is exact in this model). *)
Theorem C5_flat_discount_shares_sum_to_value
    (items : list LineItem) (taxRate discountValue : jsstring) (v t : Qc) :
  parseFloat discountValue = Fin v ->
  sum_field subtotal (computeTotals items taxRate amount discountValue) = Fin t ->
  (0 < t)%Qc ->
  sum_field discount (computeTotals items taxRate amount discountValue) = Fin v.
Proof.
  intros Hv Ht Hpos. rewrite sum_subtotal_computeTotals in Ht.
  assert (Hne : t <> 0%Qc) by (apply Qclt_not_eq in Hpos; congruence).
  rewrite (sum_field_pointwise discount _ (subtotals items) _
             (computeTotals_lookup items taxRate amount discountValue)).
  cbn [discount settled category_discount]. rewrite Ht, (dValue_of_finite _ _ Hv).
  rewrite totalSubtotal_sum_field, sum_field_num_sum in Ht.
  unfold Object_values in Ht.
  transitivity
    (num_sum ((fun s => Fin v * (s / Fin t))%num
              <$> (subtotal <$> (map_to_list (subtotals items)).*2)));
    [by rewrite <- !list_fmap_compose|].
  rewrite shares_sum; [|done|by eapply num_sum_finite].
  rewrite Ht. cbn. apply is_zero_false in Hne. rewrite Hne. f_equal.
  apply is_zero_false in Hne. unfold Qcdiv.
  by rewrite Qcmult_inv_r, Qcmult_1_r.
Qed.

Lemma C5_witness :
  sum_field discount (computeTotals two_categories (js "10") amount (js "10"))
  = Fin (Qc_of_Z 10).
Proof.
  apply (C5_flat_discount_shares_sum_to_value
           two_categories (js "10") (js "10") (Qc_of_Z 10) (Q2Qc 100)).
  - reflexivity.
  - vm_compute. reflexivity.
  - reflexivity.
Defined.

(** C6.  With a percentage discount whose value parses to [r], the discount
    of every category of the result is its subtotal times [r / 100]; and any
    other item list with the same items in that category gives that category
    the same discount. *)
Theorem C6_percentage_discount_is_per_category
    (items : list LineItem) (taxRate discountValue : jsstring) (r : Qc)
    (c : jsstring) (t : CategoryTotal) :
  parseFloat discountValue = Fin r ->
  computeTotals items taxRate percentage discountValue !! c = Some t ->
  discount t = (subtotal t * (Fin r / hundred))%num
  /\ forall items' : list LineItem,
       in_category c items' = in_category c items ->
       exists t', computeTotals items' taxRate percentage discountValue !! c
                  = Some t'
                  /\ discount t' = discount t.
Proof.
  intros Hr. rewrite computeTotals_lookup.
  destruct (subtotals items !! c) as [t0|] eqn:Hc; [|done]. intros [= <-].
  split; [cbn [discount settled category_discount subtotal];
          by rewrite (dValue_of_finite _ _ Hr)|].
  intros items' Hsame. rewrite computeTotals_lookup.
  rewrite subtotals_lookup in Hc. rewrite subtotals_lookup, Hsame, Hc.
  eexists. split; reflexivity.
Qed.

(** Groceries of 3 and 2 with a discount value of ["20"]: the discount is
    [5 * (20 / 100)], which is 1. *)
Lemma C6_witness :
  let t := entry (computeTotals three_items (js "10") percentage (js "20"))
             "Grocery" in
  subtotal t = of_Z 5
  /\ discount t = (of_Z 5 * (of_Z 20 / hundred))%num
  /\ discount t = of_Z 1
  /\ forall items' : list LineItem,
       in_category (js "Grocery") items' = in_category (js "Grocery") three_items ->
       exists t', computeTotals items' (js "10") percentage (js "20")
                    !! js "Grocery" = Some t'
                  /\ discount t' = discount t.
Proof.
  intros t.
  destruct (C6_percentage_discount_is_per_category three_items (js "10")
              (js "20") (Qc_of_Z 20) (js "Grocery") t) as [Hdiscount Hlocal].
  - reflexivity.
  - vm_compute. reflexivity.
  - assert (Hsubtotal : subtotal t = of_Z 5)
      by (apply eqb_eq; vm_compute; reflexivity).
    split; [exact Hsubtotal|]. split; [by rewrite Hdiscount, Hsubtotal|].
    split; [|exact Hlocal].
    rewrite Hdiscount. apply eqb_eq. vm_compute. reflexivity.
Defined.

(** ** Tax *)

Lemma foldl_tax_step (rate sub disc : num) (l : list LineItem) (acc : num) :
  foldl (tax_step rate sub disc) acc l
  = (acc + num_sum ((fun it => (price it - price it / sub * disc) * rate)%num
                    <$> l))%num.
Proof.
  revert acc. induction l as [|it l IH]; intros acc.
  - symmetry. apply add_zero_r.
  - cbn [foldl]. rewrite IH, fmap_cons, num_sum_cons. unfold tax_step.
    by rewrite add_assoc.
Qed.

Lemma taxable_in_in_category (items : list LineItem) (c : jsstring) :
  taxable_in items c
  = filter (fun it => taxable it = true) (in_category c items).
Proof.
  unfold taxable_in, in_category.
  induction items as [|it items IH]; [done|].
  rewrite !filter_cons. destruct (decide (category it = c)) as [Hc|Hc].
  - rewrite filter_cons. destruct (decide (taxable it = true)) as [Ht|Ht].
    + rewrite decide_True by done. by rewrite IH.
    + rewrite decide_False by (intros [_ ?]; done). apply IH.
  - rewrite decide_False by (intros [? _]; done). apply IH.
Qed.

Lemma sum_item_tax (rate sub disc : num) (l : list LineItem) :
  num_sum ((fun it => (price it - price it / sub * disc) * rate)%num
           <$> filter (fun it => taxable it = true) l)
  = num_sum (item_tax rate sub disc <$> l).
Proof.
  induction l as [|it l IH]; [done|].
  rewrite filter_cons, fmap_cons, num_sum_cons. unfold item_tax at 1.
  destruct (taxable it) eqn:Ht.
  - rewrite decide_True by done. by rewrite fmap_cons, num_sum_cons, IH.
  - rewrite decide_False by done. by rewrite IH, add_zero_l.
Qed.

Lemma sum_item_tax_none (rate sub disc : num) (l : list LineItem) :
  Forall (fun it => taxable it = false) l ->
  num_sum (item_tax rate sub disc <$> l) = zero.
Proof.
  induction 1 as [|it l Hit _ IH]; [done|].
  rewrite fmap_cons, num_sum_cons, IH. unfold item_tax. rewrite Hit.
  apply add_zero_l.
Qed.

(** C7.  The tax of every category of the result is the sum, over the items
    of that category, of [(price - price / subtotal * discount) * (rate / 100)]
    for a taxable item and of zero for any other; a category with no taxable
    item has tax 0 whatever the rate and the discount are. *)
Theorem C7_tax_is_sum_over_taxable_items
    (items : list LineItem) (taxRate : jsstring) (dt : DiscountType)
    (discountValue : jsstring) (c : jsstring) (t : CategoryTotal) :
  computeTotals items taxRate dt discountValue !! c = Some t ->
  tax t
  = num_sum (item_tax (parseFloat taxRate / hundred) (subtotal t) (discount t)
             <$> in_category c items)
  /\ (Forall (fun it => taxable it = false) (in_category c items) ->
      tax t = zero).
Proof.
  rewrite computeTotals_lookup.
  destruct (subtotals items !! c) as [t0|]; [|done]. intros [= <-].
  assert (Hsum : tax (settled items dt (rate_of taxRate) (dValue_of discountValue)
                        (totalSubtotal (subtotals items)) c t0)
                 = num_sum (item_tax (parseFloat taxRate / hundred) (subtotal t0)
                              (category_discount dt (dValue_of discountValue)
                                 (totalSubtotal (subtotals items)) t0)
                            <$> in_category c items)).
  { cbn [tax settled]. unfold category_tax.
    rewrite foldl_tax_step.
    by rewrite add_zero_l, taxable_in_in_category, sum_item_tax. }
  split; [exact Hsum|].
  intros Hnone. rewrite Hsum. by apply sum_item_tax_none.
Qed.

Lemma C7_witness :
  let t := entry (computeTotals three_items (js "10") percentage (js "20"))
             "Grocery" in
  tax t
  = num_sum (item_tax (parseFloat (js "10") / hundred) (subtotal t) (discount t)
             <$> in_category (js "Grocery") three_items)
  /\ (Forall (fun it => taxable it = false) (in_category (js "Grocery") three_items)
      -> tax t = zero).
Proof.
  intros t.
  apply (C7_tax_is_sum_over_taxable_items
           three_items (js "10") percentage (js "20")).
  vm_compute. reflexivity.
Defined.

(** ** Finite and non-negative results *)



Lemma subtotal_of_entry (items : list LineItem) (c : jsstring) (t0 : CategoryTotal) :
  subtotals items !! c = Some t0 ->
  subtotal t0 = num_sum (price <$> in_category c items).
Proof.
  rewrite subtotals_lookup. destruct (inherited c); [done|].
  destruct (in_category c items); [done|]. by intros [= <-].
Qed.

Lemma Forall_filtered {A} (P Q : A -> Prop) `{!forall x, Decision (Q x)}
    (l : list A) :
  Forall P l -> Forall P (filter Q l).
Proof.
  rewrite !Forall_forall. intros HP x Hx.
  apply list_elem_of_filter in Hx as [_ Hx]. by apply HP.
Qed.




Lemma totalSubtotal_finite (items : list LineItem) :
  Forall (fun it => is_finite (price it) = true) items ->
  exists T, totalSubtotal (subtotals items) = Fin T.
Proof.
  intros Hall. rewrite totalSubtotal_sum_field, sum_subtotals_kept.
  apply num_sum_of_finite, Forall_fmap. unfold kept. by apply Forall_filtered.
Qed.









(** The counterexample is one of the code as well: on doubles the same input
    gives the same discount, tax and total. *)
Lemma C8_counterexample_on_doubles :
  let t := entry (Binary64.computeTotals C8_items (js "10") percentage
                    (js "200")) "Grocery" in
  discount t = of_Z 20 /\ tax t = of_Z (-1) /\ total t = of_Z (-11).
Proof. repeat split; apply eqb_eq; vm_compute; reflexivity. Qed.




(** ** The unguarded division in the tax computation *)






(** ** The unguarded division, on doubles *)















Lemma inf_of_sign_not_finite (b : bool) : is_finite (inf_of_sign b) = false.
Proof. by destruct b. Qed.

Lemma div_zero_not_finite (x : num) : is_finite (x / zero)%num = false.
Proof.
  destruct x as [a| | |]; try reflexivity.
  change (is_finite (if is_zero a then NaN else inf_of_sign (is_pos a)) = false).
  destruct (is_zero a); [done|apply inf_of_sign_not_finite].
Qed.

Lemma mul_not_finite (x y : num) :
  is_finite y = false -> is_finite (x * y)%num = false.
Proof.
  destruct y as [b| | |]; [done| | |by destruct x];
    destruct x as [a| | |]; intros _; try reflexivity; cbn;
    (destruct (is_zero a); [done|apply inf_of_sign_not_finite]).
Qed.

(** A flat discount over subtotals that add up to zero is never a finite
    number, whatever the discount value and the subtotal of the category. *)
Lemma flat_discount_over_zero_total (dValue : num) (t0 : CategoryTotal) :
  is_finite (category_discount amount dValue zero t0) = false.
Proof.
  unfold category_discount. apply mul_not_finite, div_zero_not_finite.
Qed.

(** The examples of the specification. *)
Example spec_example_grocery :
  let t := entry (computeTotals
                    [item "Milk" 3 "Grocery" true; item "Bread" 2 "Grocery" false]
                    (js "10") percentage (js "0")) "Grocery" in
  Num.eqb (subtotal t) (Fin (Q2Qc 5)) = true
  /\ Num.eqb (discount t) zero = true
  /\ Num.eqb (tax t) (Fin (Q2Qc (3 # 10))) = true
  /\ Num.eqb (total t) (Fin (Q2Qc (53 # 10))) = true.
Proof. repeat split; vm_compute; reflexivity. Qed.

Example spec_example_flat_discount :
  let m := computeTotals two_categories (js "10") amount (js "10") in
  Num.eqb (discount (entry m "A")) (Fin (Q2Qc 8)) = true
  /\ Num.eqb (discount (entry m "B")) (Fin (Q2Qc 2)) = true.
Proof. repeat split; vm_compute; reflexivity. Qed.

Example spec_example_no_items :
  computeTotals [] (js "10") percentage (js "5") = ∅.
Proof. reflexivity. Qed.

(** ** JSON.parse has fuel to spare *)

Lemma skip_ws_length (s : jsstring) : (length (Parse.skip_ws s) <= length s)%nat.
Proof.
  induction s as [|c r IH]; [done|]. cbn.
  destruct (is_json_white c); cbn; lia.
Qed.

Lemma eat_length (c : N) (s r : jsstring) :
  eat c s = Some r -> length s = S (length r).
Proof.
  destruct s as [|d s]; [done|]. cbn.
  destruct (d =? c)%N; [|done]. by intros [= ->].
Qed.

Lemma eat_skip_ws_length (c : N) (s r : jsstring) :
  eat c (Parse.skip_ws s) = Some r -> (length r < length s)%nat.
Proof.
  intros Heat. apply eat_length in Heat.
  pose proof (skip_ws_length s). lia.
Qed.

Lemma digits_length (s : jsstring) (acc : Z) (count : nat) v count' r :
  digits s acc count = (v, count', r) ->
  (length r + count' = length s + count)%nat.
Proof.
  revert acc count. induction s as [|c s IH]; intros acc count; cbn.
  - intros [= <- <- <-]. done.
  - destruct (digit_of c).
    + intros Hd. apply IH in Hd. lia.
    + intros [= <- <- <-]. done.
Qed.

Lemma string_body_length (s acc str r : jsstring) :
  string_body s acc = Some (str, r) -> (length r < length s)%nat.
Proof.
  revert acc. induction s as [s IH] using (induction_ltof1 _ (@length N)).
  unfold ltof in IH. intros acc. destruct s as [|c s]; [done|].
  cbn [string_body].
  destruct (c =? 34)%N; [intros [= <- <-]; cbn; lia|].
  destruct (c =? 92)%N.
  - destruct s as [|e r1]; [done|]. destruct (e =? 117)%N.
    + destruct r1 as [|h1 [|h2 [|h3 [|h4 r2]]]]; try done.
      destruct (hex4 h1 h2 h3 h4); [|done].
      intros Hbody. apply IH in Hbody; cbn [length] in *; lia.
    + destruct (simple_escape e); [|done].
      intros Hbody. apply IH in Hbody; cbn [length] in *; lia.
  - destruct (c <? 32)%N; [done|].
    intros Hbody. apply IH in Hbody; cbn [length] in *; lia.
Qed.

Lemma optional_minus_length (s : jsstring) (b : bool) (r : jsstring) :
  optional_minus s = (b, r) -> (length r <= length s)%nat.
Proof.
  unfold optional_minus. destruct (eat 45 s) as [r'|] eqn:Heat.
  - apply eat_length in Heat. intros [= <- <-]. lia.
  - by intros [= <- <-].
Qed.

Lemma optional_sign_length (s : jsstring) (b : bool) (r : jsstring) :
  optional_sign s = (b, r) -> (length r <= length s)%nat.
Proof.
  unfold optional_sign. destruct (eat 45 s) as [r'|] eqn:Hminus.
  - apply eat_length in Hminus. intros [= <- <-]. lia.
  - destruct (eat 43 s) as [r'|] eqn:Hplus.
    + apply eat_length in Hplus. intros [= <- <-]. lia.
    + by intros [= <- <-].
Qed.

Lemma fraction_part_length (ip : Z) (s : jsstring) m nf r :
  fraction_part ip s = Some (m, nf, r) -> (length r <= length s)%nat.
Proof.
  unfold fraction_part. destruct (eat 46 s) as [r'|] eqn:Heat.
  - apply eat_length in Heat.
    destruct (digits r' ip 0) as [[m' nf'] r''] eqn:Hd.
    apply digits_length in Hd. destruct (nf' =? 0)%nat; [done|].
    intros [= <- <- <-]. lia.
  - by intros [= <- <- <-].
Qed.

Lemma exponent_part_length (s : jsstring) e r :
  exponent_part s = Some (e, r) -> (length r <= length s)%nat.
Proof.
  unfold exponent_part.
  destruct (match eat 101 s with Some r0 => Some r0 | None => eat 69 s end)
    as [r0|] eqn:Hmarker.
  - assert (length s = S (length r0)) as Hlen.
    { destruct (eat 101 s) eqn:H1; simplify_eq; by eapply eat_length. }
    destruct (optional_sign r0) as [minus r1] eqn:Hsign.
    apply optional_sign_length in Hsign.
    destruct (digits r1 0 0) as [[e' ne] r2] eqn:Hd.
    apply digits_length in Hd. destruct (ne =? 0)%nat; [done|].
    intros [= <- <-]. lia.
  - by intros [= <- <-].
Qed.

Lemma number_length (s : jsstring) (x : num) (r : jsstring) :
  Parse.number s = Some (x, r) -> (length r < length s)%nat.
Proof.
  unfold Parse.number.
  destruct (optional_minus s) as [negative s1] eqn:Hminus.
  apply optional_minus_length in Hminus.
  destruct (digits s1 0 0) as [[ip ni] r1] eqn:Hd.
  apply digits_length in Hd.
  destruct (ni =? 0)%nat eqn:Hni; [done|]. apply Nat.eqb_neq in Hni.
  destruct (starts_with [48%N] s1 && (1 <? ni)%nat); [done|]. cbn [orb].
  destruct (fraction_part ip r1) as [[[m nf] r2]|] eqn:Hfrac; [|done].
  apply fraction_part_length in Hfrac.
  destruct (exponent_part r2) as [[e r3]|] eqn:Hexp; [|done].
  apply exponent_part_length in Hexp.
  intros [= <- <-]. lia.
Qed.

Lemma literal_length (word : jsstring) (v w : value) (s r : jsstring) :
  word <> [] -> literal word v s = Parsed w r -> (length r < length s)%nat.
Proof.
  unfold literal. intros Hw. destruct (starts_with word s) eqn:Hs; [|done].
  intros [= <- <-]. rewrite length_drop.
  destruct word as [|a word]; [done|]. destruct s as [|b s]; [done|].
  cbn [length]. lia.
Qed.

(** A parse that succeeds consumes input. *)
Lemma parse_consumes (fuel : nat) :
  (forall s v r, parse_value fuel s = Parsed v r -> (length r < length s)%nat)
  /\ (forall s acc v r,
        parse_elements fuel s acc = Parsed v r -> (length r < length s)%nat)
  /\ (forall s acc v r,
        parse_members fuel s acc = Parsed v r -> (length r < length s)%nat).
Proof.
  induction fuel as [|fuel (IHv & IHe & IHm)]; [by repeat split|].
  repeat split.
  - intros s v r. cbn [parse_value].
    pose proof (skip_ws_length s) as Hws.
    destruct (Parse.skip_ws s) as [|c r0]; [done|]. cbn [length] in Hws.
    destruct (c =? 123)%N.
    { destruct (eat 125 (Parse.skip_ws r0)) as [r'|] eqn:Heat.
      - apply eat_skip_ws_length in Heat. intros [= <- <-]. lia.
      - intros Hm. apply IHm in Hm. lia. }
    destruct (c =? 91)%N.
    { destruct (eat 93 (Parse.skip_ws r0)) as [r'|] eqn:Heat.
      - apply eat_skip_ws_length in Heat. intros [= <- <-]. lia.
      - intros He. apply IHe in He. lia. }
    destruct (c =? 34)%N.
    { destruct (string_body r0 []) as [[str r']|] eqn:Hbody; [|done].
      apply string_body_length in Hbody. intros [= <- <-]. lia. }
    destruct (c =? 116)%N.
    { intros Hl. apply literal_length in Hl; [cbn [length] in Hl; lia|done]. }
    destruct (c =? 102)%N.
    { intros Hl. apply literal_length in Hl; [cbn [length] in Hl; lia|done]. }
    destruct (c =? 110)%N.
    { intros Hl. apply literal_length in Hl; [cbn [length] in Hl; lia|done]. }
    destruct (Parse.number (c :: r0)) as [[x r']|] eqn:Hnum; [|done].
    apply number_length in Hnum. cbn [length] in Hnum.
    intros [= <- <-]. lia.
  - intros s acc v r. cbn [parse_elements].
    destruct (parse_value fuel s) as [v0 r0| |] eqn:Hv; try done.
    apply IHv in Hv.
    destruct (eat 44 (Parse.skip_ws r0)) as [r'|] eqn:Hcomma.
    + apply eat_skip_ws_length in Hcomma. intros He. apply IHe in He. lia.
    + destruct (eat 93 (Parse.skip_ws r0)) as [r'|] eqn:Hclose; [|done].
      apply eat_skip_ws_length in Hclose. intros [= <- <-]. lia.
  - intros s acc v r. cbn [parse_members].
    destruct (eat 34 (Parse.skip_ws s)) as [r0|] eqn:Hquote; [|done].
    apply eat_skip_ws_length in Hquote.
    destruct (string_body r0 []) as [[key r1]|] eqn:Hbody; [|done].
    apply string_body_length in Hbody.
    destruct (eat 58 (Parse.skip_ws r1)) as [r2|] eqn:Hcolon; [|done].
    apply eat_skip_ws_length in Hcolon.
    destruct (parse_value fuel r2) as [v0 r3| |] eqn:Hv; try done.
    apply IHv in Hv.
    destruct (eat 44 (Parse.skip_ws r3)) as [r4|] eqn:Hcomma.
    + apply eat_skip_ws_length in Hcomma. intros Hm. apply IHm in Hm. lia.
    + destruct (eat 125 (Parse.skip_ws r3)) as [r4|] eqn:Hclose; [|done].
      apply eat_skip_ws_length in Hclose. intros [= <- <-]. lia.
Qed.

(** With [2 * length s + 1] units of fuel the parser never runs out. *)
Lemma parse_fuel (fuel : nat) :
  (forall s, (2 * length s + 1 <= fuel)%nat -> parse_value fuel s <> OutOfFuel)
  /\ (forall s acc, (2 * length s + 2 <= fuel)%nat ->
                    parse_elements fuel s acc <> OutOfFuel)
  /\ (forall s acc, (2 * length s + 2 <= fuel)%nat ->
                    parse_members fuel s acc <> OutOfFuel).
Proof.
  induction fuel as [|fuel (IHv & IHe & IHm)].
  { repeat split; intros; lia. }
  destruct (parse_consumes fuel) as (Cv & _ & _).
  repeat split.
  - intros s Hfuel. cbn [parse_value].
    pose proof (skip_ws_length s) as Hws.
    destruct (Parse.skip_ws s) as [|c r0]; [done|]. cbn [length] in Hws.
    pose proof (skip_ws_length r0) as Hws0.
    destruct (c =? 123)%N.
    { destruct (eat 125 (Parse.skip_ws r0)); [done|]. apply IHm. lia. }
    destruct (c =? 91)%N.
    { destruct (eat 93 (Parse.skip_ws r0)); [done|]. apply IHe. lia. }
    destruct (c =? 34)%N.
    { by destruct (string_body r0 []) as [[str r']|]. }
    unfold literal. repeat case_match; done.
  - intros s acc Hfuel. cbn [parse_elements].
    destruct (parse_value fuel s) as [v0 r0| |] eqn:Hv; [|done|].
    + apply Cv in Hv.
      destruct (eat 44 (Parse.skip_ws r0)) as [r'|] eqn:Hcomma.
      * apply eat_skip_ws_length in Hcomma. apply IHe. lia.
      * by destruct (eat 93 (Parse.skip_ws r0)).
    + exfalso. revert Hv. apply IHv. lia.
  - intros s acc Hfuel. cbn [parse_members].
    destruct (eat 34 (Parse.skip_ws s)) as [r0|] eqn:Hquote; [|done].
    apply eat_skip_ws_length in Hquote.
    destruct (string_body r0 []) as [[key r1]|] eqn:Hbody; [|done].
    apply string_body_length in Hbody.
    destruct (eat 58 (Parse.skip_ws r1)) as [r2|] eqn:Hcolon; [|done].
    apply eat_skip_ws_length in Hcolon.
    destruct (parse_value fuel r2) as [v0 r3| |] eqn:Hv; [|done|].
    + apply Cv in Hv.
      destruct (eat 44 (Parse.skip_ws r3)) as [r4|] eqn:Hcomma.
      * apply eat_skip_ws_length in Hcomma. apply IHm. lia.
      * by destruct (eat 125 (Parse.skip_ws r3)).
    + exfalso. revert Hv. apply IHv. lia.
Qed.

Lemma parse_value_fuel (text : jsstring) :
  parse_value (fuel_for text) text <> OutOfFuel.
Proof. apply parse_fuel. unfold fuel_for. lia. Qed.

(** ** Comparing values *)

Lemma value_eqb_eq : forall a b : value, value_eqb a b = true -> a = b.
Proof.
  fix IH 1. intros a b. destruct a as [|x|x|x|xs|ps], b as [|y|y|y|ys|qs];
    cbn; try discriminate.
  - done.
  - intros H. apply Bool.eqb_prop in H. by subst.
  - intros H. apply eqb_eq in H. by subst.
  - intros H. apply bool_decide_eq_true in H. by subst.
  - intros H. f_equal. revert ys H.
    induction xs as [|x xs IHxs]; intros [|y ys] H; try discriminate; [done|].
    apply andb_true_iff in H as [Hx Hxs].
    apply IH in Hx. apply IHxs in Hxs. by subst.
  - intros H. f_equal. revert qs H.
    induction ps as [|[k x] ps IHps]; intros [|[l y] qs] H;
      try discriminate; [done|].
    cbn in H. apply andb_true_iff in H as [Hp Hps].
    apply andb_true_iff in Hp as [Hk Hx].
    apply bool_decide_eq_true in Hk. apply IH in Hx. apply IHps in Hps.
    by subst.
Qed.

(** ** The shape of a decoded state *)

Lemma is_ReceiptState_value (state : ReceiptState) :
  is_ReceiptState (ReceiptState_value state) = true.
Proof.
  destruct state as [its tr dt dv]. cbn.
  apply andb_true_iff. split; [|by destruct dt].
  induction its as [|it its IH]; [done|]. cbn. exact IH.
Qed.

(** ** decodeState *)

(** [decodeState] returns for every input and never throws: it returns null
    when [atob] or [JSON.parse] throws, and otherwise the value that
    [JSON.parse] yields. *)
Lemma decodeState_returns (encoded : jsstring) :
  exists v,
    decodeState encoded = Return v
    /\ ((exists text, atob encoded = Return text /\ JSON_parse text = Return v)
        \/ (v = VNull
            /\ (throws (atob encoded)
                \/ exists text, atob encoded = Return text
                                /\ throws (JSON_parse text)))).
Proof.
  unfold decodeState. destruct (atob encoded) as [text|e] eqn:Hatob; cbn.
  - destruct (JSON_parse text) as [v|e] eqn:Hparse.
    + exists v. split; [done|]. left. by exists text.
    + exists VNull. split; [done|]. right. split; [done|]. right.
      exists text. by rewrite Hparse.
  - exists VNull. split; [done|]. right. split; [done|]. by left.
Qed.

(** C9 (fails on the code).  The claim says that input which decodes to
    structurally invalid content gives null.  [decodeState] is declared to
    return [ReceiptState | null] and catches what [atob] and [JSON.parse]
    throw, but it never looks at the value that was parsed: ["NDI="], the
    base64 text of ["42"], gives the number 42, and ["e30="], the text of
    an empty object, gives that object; neither is null, neither is a
    state. *)
Theorem C9_invalid_structure_is_returned :
  decodeState (js "NDI=") = Return (VNum (of_Z 42))
  /\ is_ReceiptState (VNum (of_Z 42)) = false
  /\ decodeState (js "e30=") = Return (VObj [])
  /\ is_ReceiptState (VObj []) = false
  /\ ~ C9_as_stated.
Proof.
  assert (H42 : decodeState (js "NDI=") = Return (VNum (of_Z 42))).
  { destruct (decodeState (js "NDI=")) as [v|e] eqn:Hd; [|by vm_compute in Hd].
    f_equal. apply value_eqb_eq. vm_compute in Hd. injection Hd as <-.
    vm_compute. reflexivity. }
  repeat split; try exact H42; try (vm_compute; reflexivity).
  intros H. destruct (H (js "NDI=")) as (v & Hv & Hshape).
  rewrite H42 in Hv. injection Hv as <-.
  destruct Hshape as [Hnull|Hstate]; discriminate.
Qed.

(** ** encodeState *)

Lemma btoa_throws (data : jsstring) (c : N) :
  c ∈ data -> (255 < c)%N -> btoa data = Throw InvalidCharacterError.
Proof.
  intros Hin Hc. unfold btoa.
  destruct (forallb _ data) eqn:Hall; [|done].
  rewrite forallb_forall in Hall. apply list_elem_of_In, Hall in Hin.
  apply N.leb_le in Hin. lia.
Qed.

Lemma short_escape_small (c e : N) : short_escape c = Some e -> (c <= 92)%N.
Proof.
  unfold short_escape.
  repeat match goal with
         | |- context [(c =? ?k)%N] =>
             destruct (N.eqb_spec c k) as [->|_]; [intros _; lia|]
         end.
  done.
Qed.

Lemma quote_unit_plain (c : N) :
  (255 < c)%N -> is_high_surrogate c = false -> is_low_surrogate c = false ->
  quote_unit c = [c].
Proof.
  intros Hc Hh Hl. unfold quote_unit.
  destruct (short_escape c) as [e|] eqn:He.
  - apply short_escape_small in He. lia.
  - rewrite Hh, Hl. destruct (c <? 32)%N eqn:Hlt; [|done].
    apply N.ltb_lt in Hlt. lia.
Qed.

Lemma quote_body_pair (a b : N) (r : jsstring) :
  quote_body (a :: b :: r)
  = if is_high_surrogate a && is_low_surrogate b
    then a :: b :: quote_body r
    else quote_unit a ++ quote_body (b :: r).
Proof. reflexivity. Qed.

(** A code unit above U+00FF that is not a surrogate is copied to the
    output of [JSON.stringify] as it is. *)
Lemma quote_body_keeps (s : jsstring) (c : N) :
  c ∈ s -> (255 < c)%N ->
  is_high_surrogate c = false -> is_low_surrogate c = false ->
  c ∈ quote_body s.
Proof.
  intros Hin Hc Hh Hl. revert Hin.
  induction s as [s IH] using (induction_ltof1 _ (@length N)).
  unfold ltof in IH. destruct s as [|a [|b r]].
  - done.
  - intros Hin. apply list_elem_of_singleton in Hin as ->.
    cbn [quote_body]. rewrite quote_unit_plain by done.
    by apply list_elem_of_singleton.
  - intros Hin. rewrite quote_body_pair.
    destruct (is_high_surrogate a && is_low_surrogate b) eqn:Hpair.
    + apply andb_true_iff in Hpair as [Ha Hb].
      apply elem_of_cons in Hin as [->|Hin]; [congruence|].
      apply elem_of_cons in Hin as [->|Hin]; [congruence|].
      do 2 apply list_elem_of_further. apply IH; [cbn; lia|done].
    + apply elem_of_cons in Hin as [->|Hin]; apply elem_of_app.
      * left. rewrite quote_unit_plain by done. by apply list_elem_of_singleton.
      * right. apply IH; [cbn; lia|done].
Qed.

Lemma quote_keeps (s : jsstring) (c : N) :
  c ∈ s -> (255 < c)%N ->
  is_high_surrogate c = false -> is_low_surrogate c = false ->
  c ∈ quote s.
Proof.
  intros. unfold quote. apply elem_of_app. right. apply elem_of_app. left.
  by apply quote_body_keeps.
Qed.

Lemma join_comma_keeps (parts : list jsstring) (p : jsstring) (c : N) :
  p ∈ parts -> c ∈ p -> c ∈ join_comma parts.
Proof.
  intros Hp Hc. induction parts as [|q [|q' parts] IH]; [by inversion Hp| |].
  - apply list_elem_of_singleton in Hp as ->. exact Hc.
  - change (c ∈ q ++ [44%N] ++ join_comma (q' :: parts)).
    apply elem_of_cons in Hp as [->|Hp]; apply elem_of_app; [by left|].
    right. apply elem_of_app. right. by apply IH.
Qed.

(** [encodeState] throws on every state in which an item name or category
    holds a code unit above U+00FF that is not a surrogate. *)
Lemma encodeState_throws_on_wide_unit (state : ReceiptState) (it : LineItem)
    (c : N) :
  it ∈ Codec.items state ->
  c ∈ name it \/ c ∈ category it ->
  (255 < c)%N -> is_high_surrogate c = false -> is_low_surrogate c = false ->
  encodeState state = Throw InvalidCharacterError.
Proof.
  intros Hit Hc Hwide Hh Hl. unfold encodeState. apply (btoa_throws _ c); [|done].
  assert (Hitem : c ∈ JSON_stringify (LineItem_value it)).
  { cbn [JSON_stringify LineItem_value map fst snd join_comma].
    destruct Hc as [Hc|Hc].
    - apply elem_of_app. right. apply elem_of_app. left.
      apply elem_of_app. left. apply elem_of_app. right.
      apply elem_of_app. right. by apply quote_keeps.
    - apply elem_of_app. right. apply elem_of_app. left.
      do 2 (apply elem_of_app; right; apply elem_of_app; right).
      apply elem_of_app. left. apply elem_of_app. right.
      apply elem_of_app. right. by apply quote_keeps. }
  destruct state as [its tr dt dv]. cbn [Codec.items] in Hit.
  cbn [JSON_stringify ReceiptState_value map fst snd join_comma Codec.items].
  apply elem_of_app. right. apply elem_of_app. left.
  apply elem_of_app. left. apply elem_of_app. right. apply elem_of_app. right.
  apply elem_of_app. right. apply elem_of_app. left.
  apply (join_comma_keeps _ (JSON_stringify (LineItem_value it))); [|done].
  apply list_elem_of_In, in_map, list_elem_of_In.
  apply list_elem_of_fmap. by exists it.
Qed.

(** C1 (fails on the code).  The claim says that every state, unicode names
    included, survives [decodeState(encodeState(s))].  [JSON.stringify]
    copies the code units of the name into the text, and [btoa] throws
    InvalidCharacterError on a code unit above U+00FF: [encodeState] has no
    result for this state. *)
Theorem C1_unicode_name_makes_encodeState_throw :
  encodeState C1_state = Throw InvalidCharacterError.
Proof. vm_compute. reflexivity. Qed.

Lemma round_trips_sound (state : ReceiptState) :
  round_trips state = true ->
  exists encoded, encodeState state = Return encoded
                  /\ decodeState encoded = Return (ReceiptState_value state).
Proof.
  unfold round_trips. destruct (encodeState state) as [encoded|]; [|done].
  intros Heq. exists encoded. split; [done|].
  destruct (decodeState encoded) as [v|]; [|done].
  f_equal. by apply value_eqb_eq.
Qed.

Example round_trip_latin1 : round_trips latin1_state = true.
Proof. vm_compute. reflexivity. Qed.

Example round_trip_empty : round_trips empty_state = true.
Proof. vm_compute. reflexivity. Qed.

(** ** atob inverts btoa *)

Ltac euclid := zify; Z.to_euclidean_division_equations; lia.

Lemma alphabet_index_char (i : N) :
  (i < 64)%N -> alphabet_index (alphabet_char i) = Some i.
Proof.
  intros Hi. unfold alphabet_char, alphabet_index.
  repeat match goal with
         | |- context [(?a <? ?b)%N] => destruct (N.ltb_spec a b)
         | |- context [(?a <=? ?b)%N] => destruct (N.leb_spec a b)
         | |- context [(?a =? ?b)%N] => destruct (N.eqb_spec a b)
         | |- context [andb _ _] => cbn [andb]
         end; try (f_equal; lia); try lia.
Qed.

Lemma alphabet_char_plain (i : N) :
  (i < 64)%N ->
  is_ascii_whitespace (alphabet_char i) = false /\ alphabet_char i <> 61%N.
Proof.
  intros Hi.
  assert (Hrange : (43 <= alphabet_char i <= 122)%N
                   /\ alphabet_char i <> 61%N).
  { unfold alphabet_char.
    repeat match goal with
           | |- context [(?a <? ?b)%N] => destruct (N.ltb_spec a b)
           | |- context [(?a =? ?b)%N] => destruct (N.eqb_spec a b)
           end; lia. }
  destruct Hrange as [Hrange Hne]. split; [|done].
  unfold is_ascii_whitespace.
  destruct (alphabet_char i) as [|p]; [lia|].
  do 6 (destruct p as [p|p|]; try reflexivity; try lia).
Qed.

Lemma list_ind3 {A} (P : list A -> Prop) :
  P [] -> (forall a, P [a]) -> (forall a b, P [a; b]) ->
  (forall a b c l, P l -> P (a :: b :: c :: l)) ->
  forall l, P l.
Proof.
  intros H0 H1 H2 H3. fix IH 1. intros [|a [|b [|c l]]].
  - exact H0.
  - apply H1.
  - apply H2.
  - apply H3, IH.
Qed.

Lemma mod4_step (n : nat) : (S (S (S (S n))) mod 4 = n mod 4)%nat.
Proof.
  replace (S (S (S (S n)))) with (n + 1 * 4)%nat by lia.
  apply Nat.Div0.mod_add.
Qed.

Lemma encode_sextets (bytes : list N) :
  encode bytes = (alphabet_char <$> sextets bytes) ++ replicate (padding bytes) 61%N.
Proof.
  induction bytes as [|a|a b|a b c rest IH] using list_ind3; try reflexivity.
  cbn [encode sextets padding]. rewrite IH, fmap_app. by rewrite <- app_assoc.
Qed.

Lemma sextets_bound (bytes : list N) :
  Forall (fun b => (b <= 255)%N) bytes ->
  Forall (fun x => (x < 64)%N) (sextets bytes).
Proof.
  induction bytes as [|a|a b|a b c rest IH] using list_ind3; intros Hall.
  - constructor.
  - inversion_clear Hall. cbn [sextets]. repeat (constructor; [euclid|]). constructor.
  - inversion_clear Hall as [|? ? Ha Hb]. inversion_clear Hb.
    repeat (constructor; [euclid|]); constructor.
  - inversion_clear Hall as [|? ? Ha Hb]. inversion_clear Hb as [|? ? Hb' Hc].
    inversion_clear Hc as [|? ? Hc' Hrest].
    cbn [sextets]. apply Forall_app. split; [|by apply IH].
    repeat (constructor; [euclid|]); constructor.
Qed.

Lemma decode_sextets (bytes : list N) :
  Forall (fun b => (b <= 255)%N) bytes -> decode (sextets bytes) = bytes.
Proof.
  induction bytes as [|a|a b|a b c rest IH] using list_ind3; intros Hall.
  - reflexivity.
  - inversion_clear Hall. cbn. f_equal. euclid.
  - inversion_clear Hall as [|? ? Ha Hb]. inversion_clear Hb.
    cbn. f_equal; [|f_equal]; euclid.
  - inversion_clear Hall as [|? ? Ha Hb]. inversion_clear Hb as [|? ? Hb' Hc].
    inversion_clear Hc as [|? ? Hc' Hrest].
    cbn [sextets app decode]. rewrite (IH Hrest).
    f_equal; [|f_equal; [|f_equal]]; euclid.
Qed.

Lemma sextets_length (bytes : list N) :
  (length (sextets bytes) mod 4)%nat <> 1%nat.
Proof.
  induction bytes as [|a|a b|a b c rest IH] using list_ind3;
    try (cbn; lia).
  cbn [sextets app length]. by rewrite mod4_step.
Qed.

Lemma encode_length (bytes : list N) : (length (encode bytes) mod 4 = 0)%nat.
Proof.
  induction bytes as [|a|a b|a b c rest IH] using list_ind3;
    try reflexivity.
  cbn [encode app length]. by rewrite mod4_step.
Qed.

Lemma eat_rev_plain (c : N) (cs : jsstring) :
  Forall (fun x => x <> c) cs -> eat c (rev cs) = None.
Proof.
  intros Hall. destruct (rev cs) as [|x r] eqn:Hrev; [done|].
  cbn. destruct (N.eqb_spec x c) as [->|]; [|done].
  exfalso. rewrite Forall_forall in Hall. apply (Hall c); [|done].
  apply list_elem_of_In, in_rev. rewrite Hrev. by left.
Qed.

Lemma strip_padding_app (cs : jsstring) (p : nat) :
  Forall (fun x => x <> 61%N) cs -> (p <= 2)%nat ->
  strip_padding (cs ++ replicate p 61%N) = cs.
Proof.
  intros Hall Hp. unfold strip_padding.
  destruct p as [|[|[|p]]]; [| | |lia]; cbn [replicate].
  - rewrite app_nil_r. by rewrite eat_rev_plain.
  - rewrite rev_app_distr. cbn. rewrite eat_rev_plain by done.
    apply rev_involutive.
  - rewrite rev_app_distr. cbn. apply rev_involutive.
Qed.

Lemma padding_bound (bytes : list N) : (padding bytes <= 2)%nat.
Proof.
  induction bytes as [|a|a b|a b c rest IH] using list_ind3; cbn; lia.
Qed.

Lemma filter_all {A} (P : A -> Prop) `{!forall x, Decision (P x)} (l : list A) :
  Forall P l -> filter P l = l.
Proof.
  induction 1 as [|x l Hx _ IH]; [done|].
  by rewrite filter_cons_True, IH.
Qed.

Lemma mapM_alphabet_index (xs : list N) :
  Forall (fun x => (x < 64)%N) xs ->
  mapM alphabet_index (alphabet_char <$> xs) = Some xs.
Proof.
  intros Hall. apply mapM_Some. apply Forall2_fmap_l.
  apply Forall_Forall2_diag. eapply Forall_impl; [exact Hall|].
  intros x Hx. by apply alphabet_index_char.
Qed.

(** On text within U+0000..U+00FF, [btoa] succeeds and [atob] gives the text
    back. *)
Lemma atob_btoa (data : jsstring) :
  Forall (fun c => (c <= 255)%N) data ->
  btoa data = Return (encode data) /\ atob (encode data) = Return data.
Proof.
  intros Hall. split.
  - unfold btoa. destruct (forallb _ data) eqn:Hf; [done|].
    exfalso. apply not_true_iff_false in Hf. apply Hf.
    apply forallb_forall. intros c Hc. apply N.leb_le.
    rewrite Forall_forall in Hall. by apply Hall, list_elem_of_In.
  - pose proof (sextets_bound data Hall) as Hsix.
    assert (Hchars : Forall (fun c => is_ascii_whitespace c = false /\ c <> 61%N)
                       (alphabet_char <$> sextets data)).
    { apply Forall_fmap. eapply Forall_impl; [exact Hsix|].
      intros x Hx. by apply alphabet_char_plain. }
    unfold atob. rewrite filter_all.
    2:{ rewrite encode_sextets. apply Forall_app. split.
        - eapply Forall_impl; [exact Hchars|]. by intros c [? _].
        - by apply Forall_replicate. }
    rewrite encode_length. cbn [Nat.eqb].
    rewrite encode_sextets, strip_padding_app;
      [|eapply Forall_impl; [exact Hchars|]; by intros c [_ ?]
       |apply padding_bound].
    rewrite length_fmap.
    destruct (length (sextets data) mod 4 =? 1)%nat eqn:Hmod.
    { apply Nat.eqb_eq in Hmod. by apply sextets_length in Hmod. }
    rewrite mapM_alphabet_index by done. by rewrite decode_sextets.
Qed.

(** ** A string literal reads back as the string it quotes *)

Lemma simple_escape_short (c e : N) :
  short_escape c = Some e -> simple_escape e = Some c /\ (e =? 117)%N = false.
Proof.
  unfold short_escape.
  repeat match goal with
         | |- context [(c =? ?k)%N] =>
             destruct (N.eqb_spec c k) as [->|_]; [by intros [= <-]|]
         end.
  done.
Qed.

Lemma hex_value_char (d : N) : (d < 16)%N -> hex_value (hex_char d) = Some d.
Proof.
  intros Hd. unfold hex_char, hex_value.
  repeat match goal with
         | |- context [(?a <? ?b)%N] => destruct (N.ltb_spec a b)
         | |- context [(?a <=? ?b)%N] => destruct (N.leb_spec a b)
         | |- context [andb _ _] => cbn [andb]
         end; try (f_equal; lia); try lia.
Qed.

Lemma hex4_escape (c : N) :
  (c < 65536)%N ->
  hex4 (hex_char (c / 4096 mod 16)) (hex_char (c / 256 mod 16))
       (hex_char (c / 16 mod 16)) (hex_char (c mod 16)) = Some c.
Proof.
  intros Hc. unfold hex4.
  rewrite !hex_value_char by euclid. f_equal. euclid.
Qed.

Lemma string_body_plain (a : N) (t acc : jsstring) :
  (a =? 34)%N = false -> (a =? 92)%N = false -> (a <? 32)%N = false ->
  string_body (a :: t) acc = string_body t (a :: acc).
Proof. intros H1 H2 H3. cbn [string_body]. by rewrite H1, H2, H3. Qed.

Lemma short_escape_none (a : N) :
  short_escape a = None -> (a =? 34)%N = false /\ (a =? 92)%N = false.
Proof.
  unfold short_escape.
  repeat match goal with
         | |- context [(a =? ?k)%N] =>
             destruct (N.eqb_spec a k) as [->|?]; [done|]
         end.
  done.
Qed.

Lemma string_body_unit (a : N) (t acc : jsstring) :
  (a < 65536)%N ->
  string_body (quote_unit a ++ t) acc = string_body t (a :: acc).
Proof.
  intros Ha. unfold quote_unit.
  destruct (short_escape a) as [e|] eqn:He.
  - apply simple_escape_short in He as [Hsimple He].
    cbn [app string_body]. cbn. by rewrite He, Hsimple.
  - apply short_escape_none in He as [H34 H92].
    destruct ((a <? 32)%N || is_high_surrogate a || is_low_surrogate a)
      eqn:Hesc.
    + unfold unicode_escape. cbn [app string_body]. cbn.
      by rewrite hex4_escape.
    + apply orb_false_iff in Hesc as [Hesc _].
      apply orb_false_iff in Hesc as [Hlt _].
      by apply string_body_plain.
Qed.

Lemma surrogate_plain (a : N) :
  is_high_surrogate a || is_low_surrogate a = true ->
  (a =? 34)%N = false /\ (a =? 92)%N = false /\ (a <? 32)%N = false.
Proof.
  unfold is_high_surrogate, is_low_surrogate. intros H.
  apply orb_true_iff in H as [H|H]; apply andb_true_iff in H as [H _];
    apply N.leb_le in H;
    (repeat split; [apply N.eqb_neq|apply N.eqb_neq|apply N.ltb_ge]; lia).
Qed.

Lemma string_body_quote (s rest acc : jsstring) :
  Forall (fun c => (c < 65536)%N) s ->
  string_body (quote_body s ++ 34%N :: rest) acc = Some (rev acc ++ s, rest).
Proof.
  revert acc. induction s as [s IH] using (induction_ltof1 _ (@length N)).
  unfold ltof in IH. intros acc Hall. destruct s as [|a [|b r]].
  - cbn. by rewrite app_nil_r.
  - inversion_clear Hall as [|? ? Ha _]. cbn [quote_body].
    rewrite string_body_unit by done. reflexivity.
  - inversion Hall as [|? ? Ha Hall']; subst.
    inversion Hall' as [|? ? Hb Hr]; subst.
    rewrite quote_body_pair.
    destruct (is_high_surrogate a && is_low_surrogate b) eqn:Hpair.
    + apply andb_true_iff in Hpair as [Hha Hlb].
      destruct (surrogate_plain a) as (A1 & A2 & A3); [by rewrite Hha|].
      destruct (surrogate_plain b) as (B1 & B2 & B3);
        [rewrite Hlb; by destruct (is_high_surrogate b)|].
      cbn [app]. rewrite !string_body_plain by done.
      rewrite IH by (cbn; lia || done). cbn. by rewrite <- !app_assoc.
    + rewrite <- app_assoc, string_body_unit by done.
      rewrite IH by (cbn; lia || done). cbn. by rewrite <- app_assoc.
Qed.

(** ** A number literal is read the same whatever follows the comma *)

Lemma eat_frame (c : N) (u : jsstring) :
  c <> 44%N ->
  (forall tail, eat c (u ++ 44%N :: tail) = None)
  \/ (exists u', forall tail, eat c (u ++ 44%N :: tail) = Some (u' ++ 44%N :: tail)).
Proof.
  intros Hc. unfold eat. destruct u as [|d u]; cbn [app].
  - left. intros tail. destruct (N.eqb_spec 44 c); [congruence|done].
  - destruct (d =? c)%N; [right; by exists u|by left].
Qed.

Lemma digits_frame (u : jsstring) (acc : Z) (count : nat) :
  exists v count' u',
    forall tail,
      digits (u ++ 44%N :: tail) acc count = (v, count', u' ++ 44%N :: tail).
Proof.
  revert acc count. induction u as [|d u IH]; intros acc count.
  - exists acc, count, []. reflexivity.
  - cbn [app digits]. destruct (digit_of d) as [x|].
    + apply IH.
    + by exists acc, count, (d :: u).
Qed.

Lemma starts_with_frame (p u : jsstring) :
  Forall (fun c => c <> 44%N) p ->
  exists b, forall tail, starts_with p (u ++ 44%N :: tail) = b.
Proof.
  intros Hp. revert u. induction Hp as [|c p Hc _ IH]; intros u.
  - by exists true.
  - destruct u as [|d u]; cbn [app starts_with].
    + exists false. intros tail. by destruct (N.eqb_spec c 44).
    + destruct (IH u) as [b Hb]. exists ((c =? d)%N && b). intros tail.
      by rewrite Hb.
Qed.

Lemma optional_minus_frame (u : jsstring) :
  exists b u', forall tail,
    optional_minus (u ++ 44%N :: tail) = (b, u' ++ 44%N :: tail).
Proof.
  unfold optional_minus.
  destruct (eat_frame 45 u) as [Hnone|[u' Hsome]]; [done| |].
  - exists false, u. intros tail. by rewrite Hnone.
  - exists true, u'. intros tail. by rewrite Hsome.
Qed.

Lemma optional_sign_frame (u : jsstring) :
  exists b u', forall tail,
    optional_sign (u ++ 44%N :: tail) = (b, u' ++ 44%N :: tail).
Proof.
  unfold optional_sign.
  destruct (eat_frame 45 u) as [Hminus|[u' Hminus]]; [done| |].
  - destruct (eat_frame 43 u) as [Hplus|[u' Hplus]]; [done| |].
    + exists false, u. intros tail. by rewrite Hminus, Hplus.
    + exists false, u'. intros tail. by rewrite Hminus, Hplus.
  - exists true, u'. intros tail. by rewrite Hminus.
Qed.

Lemma fraction_part_frame (ip : Z) (u : jsstring) :
  (forall tail, fraction_part ip (u ++ 44%N :: tail) = None)
  \/ (exists res u', forall tail,
        fraction_part ip (u ++ 44%N :: tail) = Some (res, u' ++ 44%N :: tail)).
Proof.
  unfold fraction_part.
  destruct (eat_frame 46 u) as [Hnone|[u' Hsome]]; [done| |].
  - right. exists (ip, 0), u. intros tail. by rewrite Hnone.
  - destruct (digits_frame u' ip 0) as (m & nf & u'' & Hd).
    destruct (nf =? 0)%nat eqn:Hnf.
    + left. intros tail. by rewrite Hsome, Hd, Hnf.
    + right. exists (m, Z.of_nat nf), u''. intros tail.
      by rewrite Hsome, Hd, Hnf.
Qed.

Lemma exponent_part_frame (u : jsstring) :
  (forall tail, exponent_part (u ++ 44%N :: tail) = None)
  \/ (exists res u', forall tail,
        exponent_part (u ++ 44%N :: tail) = Some (res, u' ++ 44%N :: tail)).
Proof.
  unfold exponent_part.
  assert (Hmarker :
    (forall tail,
       match eat 101 (u ++ 44%N :: tail) with
       | Some r => Some r
       | None => eat 69 (u ++ 44%N :: tail)
       end = None)
    \/ (exists u', forall tail,
          match eat 101 (u ++ 44%N :: tail) with
          | Some r => Some r
          | None => eat 69 (u ++ 44%N :: tail)
          end = Some (u' ++ 44%N :: tail))).
  { destruct (eat_frame 101 u) as [He|[u' He]]; [done| |].
    - destruct (eat_frame 69 u) as [HE|[u' HE]]; [done| |].
      + left. intros tail. by rewrite He, HE.
      + right. exists u'. intros tail. by rewrite He, HE.
    - right. exists u'. intros tail. by rewrite He. }
  destruct Hmarker as [Hnone|[u1 Hsome]].
  - right. exists 0, u. intros tail. by rewrite Hnone.
  - destruct (optional_sign_frame u1) as (minus & u2 & Hsign).
    destruct (digits_frame u2 0 0) as (e & ne & u3 & Hd).
    destruct (ne =? 0)%nat eqn:Hne.
    + left. intros tail. by rewrite Hsome, Hsign, Hd, Hne.
    + right. exists (if minus then - e else e), u3. intros tail.
      by rewrite Hsome, Hsign, Hd, Hne.
Qed.

Lemma number_frame (u : jsstring) :
  (forall tail, Parse.number (u ++ 44%N :: tail) = None)
  \/ (exists x u', forall tail,
        Parse.number (u ++ 44%N :: tail) = Some (x, u' ++ 44%N :: tail)).
Proof.
  unfold Parse.number.
  destruct (optional_minus_frame u) as (negative & u1 & Hminus).
  destruct (digits_frame u1 0 0) as (ip & ni & u2 & Hd).
  destruct (starts_with_frame [48%N] u1) as [zero_first Hzero].
  { by repeat constructor. }
  destruct ((ni =? 0)%nat || zero_first && (1 <? ni)%nat) eqn:Hbad.
  { left. intros tail. by rewrite Hminus, Hd, Hzero, Hbad. }
  destruct (fraction_part_frame ip u2) as [Hfrac|([m nf] & u3 & Hfrac)].
  { left. intros tail. by rewrite Hminus, Hd, Hzero, Hbad, Hfrac. }
  destruct (exponent_part_frame u3) as [Hexp|(e & u4 & Hexp)].
  { left. intros tail. by rewrite Hminus, Hd, Hzero, Hbad, Hfrac, Hexp. }
  right. eexists _, u4. intros tail.
  by rewrite Hminus, Hd, Hzero, Hbad, Hfrac, Hexp.
Qed.

Lemma price_reads_back (x : num) (tail : jsstring) :
  price_round_trips x = true ->
  Parse.number (number_json x ++ 44%N :: tail) = Some (x, 44%N :: tail).
Proof.
  unfold price_round_trips. intros Hx.
  destruct (number_frame (number_json x)) as [Hnone|(y & u' & Hsome)].
  - by rewrite (Hnone []) in Hx.
  - rewrite (Hsome []) in Hx. apply andb_true_iff in Hx as [Heq Hrest].
    apply eqb_eq in Heq as <-. apply bool_decide_eq_true in Hrest.
    destruct u' as [|a [|b u']]; try discriminate.
    apply (Hsome tail).
Qed.

(** ** More fuel does not change a parse *)

Lemma parse_more_fuel (n : nat) :
  (forall s m, parse_value n s <> OutOfFuel -> (n <= m)%nat ->
               parse_value m s = parse_value n s)
  /\ (forall s acc m, parse_elements n s acc <> OutOfFuel -> (n <= m)%nat ->
                      parse_elements m s acc = parse_elements n s acc)
  /\ (forall s acc m, parse_members n s acc <> OutOfFuel -> (n <= m)%nat ->
                      parse_members m s acc = parse_members n s acc).
Proof.
  induction n as [|n (IHv & IHe & IHm)]; [by repeat split|].
  repeat split.
  - intros s m Hn Hm. destruct m as [|m]; [lia|].
    cbn [parse_value] in *.
    destruct (Parse.skip_ws s) as [|c r]; [done|].
    destruct (c =? 123)%N.
    { destruct (eat 125 (Parse.skip_ws r)); [done|]. apply IHm; [done|lia]. }
    destruct (c =? 91)%N.
    { destruct (eat 93 (Parse.skip_ws r)); [done|]. apply IHe; [done|lia]. }
    done.
  - intros s acc m Hn Hm. destruct m as [|m]; [lia|].
    cbn [parse_elements] in *.
    assert (Hv : parse_value n s <> OutOfFuel).
    { intros Hv. by rewrite Hv in Hn. }
    rewrite (IHv s m Hv) by lia.
    destruct (parse_value n s) as [v r| |]; [|done|done].
    destruct (eat 44 (Parse.skip_ws r)); [|done]. apply IHe; [done|lia].
  - intros s acc m Hn Hm. destruct m as [|m]; [lia|].
    cbn [parse_members] in *.
    destruct (eat 34 (Parse.skip_ws s)) as [r|]; [|done].
    destruct (string_body r []) as [[key r1]|]; [|done].
    destruct (eat 58 (Parse.skip_ws r1)) as [r2|]; [|done].
    assert (Hv : parse_value n r2 <> OutOfFuel).
    { intros Hv. by rewrite Hv in Hn. }
    rewrite (IHv r2 m Hv) by lia.
    destruct (parse_value n r2) as [v r3| |]; [|done|done].
    destruct (eat 44 (Parse.skip_ws r3)); [|done]. apply IHm; [done|lia].
Qed.

(** A parse that succeeds with some fuel is the parse [JSON.parse] makes. *)
Lemma parse_value_any_fuel (n : nat) (text : jsstring) (v : value)
    (rest : jsstring) :
  parse_value n text = Parsed v rest ->
  parse_value (fuel_for text) text = Parsed v rest.
Proof.
  intros Hn. destruct (Nat.le_ge_cases n (fuel_for text)) as [Hle|Hge].
  - destruct (parse_more_fuel n) as (Hv & _ & _).
    rewrite (Hv text (fuel_for text)); [done|by rewrite Hn|done].
  - destruct (parse_more_fuel (fuel_for text)) as (Hv & _ & _).
    rewrite <- (Hv text n); [done|apply parse_value_fuel|done].
Qed.

Lemma JSON_parse_complete (n : nat) (text : jsstring) (v : value) :
  parse_value n text = Parsed v [] -> JSON_parse text = Return v.
Proof.
  intros Hn. unfold JSON_parse. by rewrite (parse_value_any_fuel n text v []).
Qed.

(** ** Reading back what [JSON.stringify] writes for a state *)

Lemma latin1_units (s : jsstring) :
  latin1 s -> Forall (fun c => (c < 65536)%N) s.
Proof. intros Hs. eapply Forall_impl; [exact Hs|]. intros c Hc. cbn in Hc. lia. Qed.

Lemma parse_value_string (fuel : nat) (s rest : jsstring) :
  Forall (fun c => (c < 65536)%N) s ->
  parse_value (S fuel) (quote s ++ rest) = Parsed (VStr s) rest.
Proof.
  intros Hs. unfold quote. rewrite <- !app_assoc. cbn [app parse_value].
  cbn [Parse.skip_ws is_json_white]. cbn [N.eqb Pos.eqb].
  by rewrite string_body_quote.
Qed.

Lemma parse_value_bool (fuel : nat) (b : bool) (rest : jsstring) :
  parse_value (S fuel) (JSON_stringify (VBool b) ++ rest)
  = Parsed (VBool b) rest.
Proof. by destruct b. Qed.

Lemma number_first (s : jsstring) (x : num) (r : jsstring) :
  Parse.number s = Some (x, r) ->
  exists c t, s = c :: t /\ (c = 45%N \/ (48 <= c <= 57)%N).
Proof.
  unfold Parse.number, optional_minus, eat. destruct s as [|c t]; [done|].
  intros Hnum. exists c, t. split; [done|].
  destruct (N.eqb_spec c 45) as [->|Hc]; [by left|]. right.
  cbn [digits] in Hnum. unfold digit_of in Hnum.
  destruct ((48 <=? c)%N && (c <=? 57)%N) eqn:Hdigit.
  - apply andb_true_iff in Hdigit as [H1 H2].
    apply N.leb_le in H1, H2. lia.
  - by cbn in Hnum.
Qed.

Lemma parse_value_number (fuel : nat) (s : jsstring) (x : num) (r : jsstring) :
  Parse.number s = Some (x, r) ->
  parse_value (S fuel) s = Parsed (VNum x) r.
Proof.
  intros Hnum. destruct (number_first s x r Hnum) as (c & t & -> & Hc).
  cbn [parse_value Parse.skip_ws].
  assert (Hwhite : is_json_white c = false).
  { unfold is_json_white. destruct c as [|p]; [lia|].
    do 6 (destruct p as [p|p|]; try reflexivity; try lia). }
  rewrite Hwhite.
  repeat match goal with
         | |- context [(c =? ?k)%N] =>
             destruct (N.eqb_spec c k) as [->|_]; [lia|]
         end.
  by rewrite Hnum.
Qed.

Lemma parse_value_price (fuel : nat) (x : num) (tail : jsstring) :
  price_round_trips x = true ->
  parse_value (S fuel) (number_json x ++ 44%N :: tail)
  = Parsed (VNum x) (44%N :: tail).
Proof.
  intros Hx. apply parse_value_number. by apply price_reads_back.
Qed.

Lemma members_comma (fuel : nat) (key : jsstring) (v : value)
    (text tail : jsstring) (acc : list (jsstring * value)) :
  Forall (fun c => (c < 65536)%N) key ->
  parse_value fuel (text ++ 44%N :: tail) = Parsed v (44%N :: tail) ->
  parse_members (S fuel) (quote key ++ 58%N :: text ++ 44%N :: tail) acc
  = parse_members fuel tail (set_prop key v acc).
Proof.
  intros Hkey Hv. unfold quote. rewrite <- !app_assoc.
  cbn [app parse_members Parse.skip_ws is_json_white eat N.eqb Pos.eqb].
  rewrite string_body_quote by done.
  cbn [app rev Parse.skip_ws is_json_white eat N.eqb Pos.eqb].
  rewrite Hv.
  by cbn [Parse.skip_ws is_json_white eat N.eqb Pos.eqb].
Qed.

Lemma members_close (fuel : nat) (key : jsstring) (v : value)
    (text tail : jsstring) (acc : list (jsstring * value)) :
  Forall (fun c => (c < 65536)%N) key ->
  parse_value fuel (text ++ 125%N :: tail) = Parsed v (125%N :: tail) ->
  parse_members (S fuel) (quote key ++ 58%N :: text ++ 125%N :: tail) acc
  = Parsed (VObj (set_prop key v acc)) tail.
Proof.
  intros Hkey Hv. unfold quote. rewrite <- !app_assoc.
  cbn [app parse_members Parse.skip_ws is_json_white eat N.eqb Pos.eqb].
  rewrite string_body_quote by done.
  cbn [app rev Parse.skip_ws is_json_white eat N.eqb Pos.eqb].
  rewrite Hv.
  by cbn [Parse.skip_ws is_json_white eat N.eqb Pos.eqb].
Qed.

Lemma ascii_units (s : string) : Forall (fun c => (c < 65536)%N) (js s).
Proof.
  induction s as [|a s IH]; [constructor|]. cbn [js]. constructor; [|done].
  pose proof (Ascii.N_ascii_bounded a). lia.
Qed.

Lemma LineItem_text (it : LineItem) (rest : jsstring) :
  JSON_stringify (LineItem_value it) ++ rest
  = 123%N
    :: quote (js "name") ++ 58%N :: quote (name it) ++ 44%N
    :: quote (js "price") ++ 58%N :: number_json (price it) ++ 44%N
    :: quote (js "category") ++ 58%N :: quote (category it) ++ 44%N
    :: quote (js "taxable") ++ 58%N
    :: JSON_stringify (VBool (taxable it)) ++ 125%N :: rest.
Proof.
  cbn [JSON_stringify LineItem_value map join_comma fst snd].
  rewrite <- !app_assoc. reflexivity.
Qed.

Lemma parse_value_LineItem (fuel : nat) (it : LineItem) (rest : jsstring) :
  latin1 (name it) -> latin1 (category it) ->
  price_round_trips (price it) = true ->
  parse_value (6 + fuel) (JSON_stringify (LineItem_value it) ++ rest)
  = Parsed (LineItem_value it) rest.
Proof.
  intros Hname Hcat Hprice. rewrite LineItem_text.
  change (6 + fuel)%nat with (S (S (S (S (S (S fuel)))))).
  cbn [parse_value Parse.skip_ws is_json_white N.eqb Pos.eqb].
  assert (Hopen : forall t, eat 125 (Parse.skip_ws (quote (js "name") ++ t)) = None)
    by reflexivity.
  rewrite Hopen.
  rewrite (members_comma (S (S (S (S fuel)))) (js "name") (VStr (name it))
             (quote (name it)));
    [|apply ascii_units|by apply parse_value_string, latin1_units].
  rewrite (members_comma (S (S (S fuel))) (js "price") (VNum (price it))
             (number_json (price it)));
    [|apply ascii_units|by apply parse_value_price].
  rewrite (members_comma (S (S fuel)) (js "category") (VStr (category it))
             (quote (category it)));
    [|apply ascii_units|by apply parse_value_string, latin1_units].
  rewrite (members_close (S fuel) (js "taxable") (VBool (taxable it))
             (JSON_stringify (VBool (taxable it))));
    [|apply ascii_units|by apply parse_value_bool].
  reflexivity.
Qed.

Lemma parse_elements_items (its : list LineItem) (acc : list value)
    (fuel : nat) (tail : jsstring) :
  its <> [] -> Forall item_ok its ->
  parse_elements (length its + 6 + fuel)
    (join_comma (map JSON_stringify (LineItem_value <$> its)) ++ 93%N :: tail)
    acc
  = Parsed (VArr (rev acc ++ (LineItem_value <$> its))) tail.
Proof.
  intros Hne Hall. revert acc. induction Hall as [|it its Hit Hits IH];
    intros acc; [done|].
  destruct Hit as (Hname & Hcat & Hprice).
  replace (length (it :: its) + 6 + fuel)%nat
    with (S (6 + (length its + fuel))) by (cbn [length]; lia).
  cbn [parse_elements]. destruct its as [|it2 its].
  - cbn [fmap list_fmap map join_comma].
    rewrite parse_value_LineItem by done.
    by cbn [Parse.skip_ws is_json_white eat N.eqb Pos.eqb rev app].
  - change (join_comma (map JSON_stringify (LineItem_value <$> it :: it2 :: its)))
      with (JSON_stringify (LineItem_value it) ++ [44%N]
            ++ join_comma (map JSON_stringify (LineItem_value <$> it2 :: its))).
    rewrite <- !app_assoc. cbn [app].
    rewrite parse_value_LineItem by done.
    cbn [Parse.skip_ws is_json_white eat N.eqb Pos.eqb].
    replace (6 + (length (it2 :: its) + fuel))%nat
      with (length (it2 :: its) + 6 + fuel)%nat by lia.
    rewrite IH by done. cbn [rev fmap list_fmap]. by rewrite <- app_assoc.
Qed.

Lemma parse_value_items (its : list LineItem) (fuel : nat) (tail : jsstring) :
  Forall item_ok its ->
  parse_value (length its + 8 + fuel)
    (JSON_stringify (VArr (LineItem_value <$> its)) ++ tail)
  = Parsed (VArr (LineItem_value <$> its)) tail.
Proof.
  intros Hall. cbn [JSON_stringify]. rewrite <- !app_assoc. cbn [app].
  replace (length its + 8 + fuel)%nat
    with (S (length its + 6 + (1 + fuel))) by lia.
  cbn [parse_value Parse.skip_ws is_json_white N.eqb Pos.eqb].
  destruct its as [|it its]; [reflexivity|].
  assert (Hopen :
    eat 93 (Parse.skip_ws
              (join_comma (map JSON_stringify (LineItem_value <$> it :: its))
               ++ 93%N :: tail)) = None).
  { destruct its as [|it2 its]; reflexivity. }
  rewrite Hopen. by rewrite parse_elements_items.
Qed.

Lemma State_text (state : ReceiptState) :
  JSON_stringify (ReceiptState_value state)
  = 123%N
    :: quote (js "items") ++ 58%N
    :: JSON_stringify (VArr (LineItem_value <$> Codec.items state)) ++ 44%N
    :: quote (js "taxRate") ++ 58%N :: quote (Codec.taxRate state) ++ 44%N
    :: quote (js "discountType") ++ 58%N
    :: JSON_stringify (DiscountType_value (Codec.discountType state)) ++ 44%N
    :: quote (js "discountValue") ++ 58%N
    :: quote (Codec.discountValue state) ++ 125%N :: [].
Proof.
  cbn [JSON_stringify ReceiptState_value map join_comma fst snd].
  rewrite <- !app_assoc. reflexivity.
Qed.

Lemma parse_value_DiscountType (fuel : nat) (dt : DiscountType)
    (tail : jsstring) :
  parse_value (S fuel) (JSON_stringify (DiscountType_value dt) ++ tail)
  = Parsed (DiscountType_value dt) tail.
Proof.
  destruct dt; cbn [DiscountType_value JSON_stringify];
    apply parse_value_string, ascii_units.
Qed.

(** [JSON.parse] reads the text of an encodable state back as the state. *)
Lemma JSON_parse_stringify (state : ReceiptState) :
  encodable state ->
  JSON_parse (JSON_stringify (ReceiptState_value state))
  = Return (ReceiptState_value state).
Proof.
  intros (Hrate & Hvalue & Hitems).
  apply (JSON_parse_complete (length (Codec.items state) + 13)).
  rewrite State_text.
  replace (length (Codec.items state) + 13)%nat
    with (S (S (S (S (length (Codec.items state) + 8 + 1))))) by lia.
  cbn [parse_value Parse.skip_ws is_json_white N.eqb Pos.eqb].
  assert (Hopen : forall t, eat 125 (Parse.skip_ws (quote (js "items") ++ t)) = None)
    by reflexivity.
  rewrite Hopen.
  rewrite (members_comma (S (S (length (Codec.items state) + 8 + 1)))
             (js "items") (VArr (LineItem_value <$> Codec.items state))
             (JSON_stringify (VArr (LineItem_value <$> Codec.items state))));
    [|apply ascii_units|].
  2:{ replace (S (S (length (Codec.items state) + 8 + 1)))
        with (length (Codec.items state) + 8 + 3)%nat by lia.
      by apply parse_value_items. }
  rewrite (members_comma (S (length (Codec.items state) + 8 + 1))
             (js "taxRate") (VStr (Codec.taxRate state))
             (quote (Codec.taxRate state)));
    [|apply ascii_units|by apply parse_value_string, latin1_units].
  replace (length (Codec.items state) + 8 + 1)%nat
    with (S (S (length (Codec.items state) + 7))) by lia.
  rewrite (members_comma (S (S (length (Codec.items state) + 7)))
             (js "discountType")
             (DiscountType_value (Codec.discountType state))
             (JSON_stringify (DiscountType_value (Codec.discountType state))));
    [|apply ascii_units|by apply parse_value_DiscountType].
  rewrite (members_close (S (length (Codec.items state) + 7))
             (js "discountValue") (VStr (Codec.discountValue state))
             (quote (Codec.discountValue state)));
    [|apply ascii_units|by apply parse_value_string, latin1_units].
  reflexivity.
Qed.

(** ** The text of an encodable state stays within U+0000..U+00FF *)

Lemma latin1_app (s t : jsstring) : latin1 s -> latin1 t -> latin1 (s ++ t).
Proof. intros. apply Forall_app. by split. Qed.

Lemma latin1_cons (c : N) (s : jsstring) :
  (c <= 255)%N -> latin1 s -> latin1 (c :: s).
Proof. intros. by constructor. Qed.

Lemma latin1_js (s : string) : latin1 (js s).
Proof.
  induction s as [|a s IH]; [constructor|]. cbn [js]. constructor; [|done].
  pose proof (Ascii.N_ascii_bounded a). lia.
Qed.

Lemma hex_char_latin1 (d : N) : (d < 16)%N -> (hex_char d <= 255)%N.
Proof. intros Hd. unfold hex_char. destruct (d <? 10)%N; lia. Qed.

Lemma short_escape_latin1 (c e : N) : short_escape c = Some e -> (e <= 255)%N.
Proof.
  unfold short_escape.
  repeat match goal with
         | |- context [(c =? ?k)%N] =>
             destruct (N.eqb_spec c k) as [->|_]; [intros [= <-]; lia|]
         end.
  done.
Qed.

Lemma quote_unit_latin1 (c : N) : (c <= 255)%N -> latin1 (quote_unit c).
Proof.
  intros Hc. unfold quote_unit. destruct (short_escape c) as [e|] eqn:He.
  - apply short_escape_latin1 in He. repeat constructor; [lia|done].
  - destruct (_ || _).
    + unfold unicode_escape.
      repeat (apply latin1_cons; [try lia; apply hex_char_latin1; euclid|]).
      constructor.
    + by repeat constructor.
Qed.

Lemma quote_body_latin1 (s : jsstring) : latin1 s -> latin1 (quote_body s).
Proof.
  induction s as [s IH] using (induction_ltof1 _ (@length N)).
  unfold ltof in IH. intros Hs. destruct s as [|a [|b r]].
  - constructor.
  - inversion_clear Hs. by apply quote_unit_latin1.
  - inversion Hs as [|? ? Ha Hs']; subst. inversion Hs' as [|? ? Hb Hr]; subst.
    rewrite quote_body_pair. destruct (_ && _).
    + do 2 (apply latin1_cons; [done|]). apply IH; [cbn; lia|done].
    + apply latin1_app; [by apply quote_unit_latin1|].
      apply IH; [cbn; lia|done].
Qed.

Lemma quote_latin1 (s : jsstring) : latin1 s -> latin1 (quote s).
Proof.
  intros Hs. unfold quote. apply latin1_cons; [lia|].
  apply latin1_app; [by apply quote_body_latin1|]. by repeat constructor.
Qed.

Lemma digit_char_latin1 (d : Z) : (d < 10)%Z -> (digit_char d <= 255)%N.
Proof. intros Hd. unfold digit_char. lia. Qed.

Lemma decimal_fuel_latin1 (fuel : nat) (z : Z) (acc : jsstring) :
  latin1 acc -> latin1 (decimal_fuel fuel z acc).
Proof.
  revert z acc. induction fuel as [|fuel IH]; intros z acc Hacc; [done|].
  cbn [decimal_fuel]. destruct (Z.ltb_spec z 10).
  - apply latin1_cons; [by apply digit_char_latin1|done].
  - apply IH. apply latin1_cons; [|done].
    apply digit_char_latin1. euclid.
Qed.

Lemma decimal_latin1 (z : Z) : latin1 (decimal z).
Proof. apply decimal_fuel_latin1. constructor. Qed.

Lemma zeros_latin1 (count : Z) : latin1 (zeros count).
Proof. apply Forall_replicate. lia. Qed.

Lemma layout_latin1 (s k n : Z) : latin1 (layout s k n).
Proof.
  unfold layout. cbv zeta. pose proof (decimal_latin1 s) as Hs.
  repeat match goal with
         | |- context [if ?b then _ else _] => destruct b
         | |- latin1 (_ ++ _) => apply latin1_app
         | |- latin1 (_ :: _) => apply latin1_cons
         | |- latin1 (take _ _) => by apply Forall_take
         | |- latin1 (drop _ _) => by apply Forall_drop
         | |- latin1 (decimal _) => apply decimal_latin1
         | |- latin1 (zeros _) => apply zeros_latin1
         | |- latin1 [] => constructor
         | |- (_ <= 255)%N => lia
         end.
Qed.

Lemma number_json_latin1 (x : num) : latin1 (number_json x).
Proof.
  unfold number_json. destruct x as [q| | |]; cbn [is_finite];
    try apply latin1_js.
  unfold number_to_string, positive_to_string.
  destruct (is_zero q); [by repeat constructor|].
  destruct (is_neg q).
  - destruct (significand _ _) as [[s k] n].
    apply latin1_cons; [lia|apply layout_latin1].
  - destruct (significand _ _) as [[s k] n]. apply layout_latin1.
Qed.

Lemma join_comma_latin1 (parts : list jsstring) :
  Forall latin1 parts -> latin1 (join_comma parts).
Proof.
  induction 1 as [|p parts Hp Hparts IH]; [constructor|].
  destruct parts as [|p' parts]; [done|].
  change (latin1 (p ++ [44%N] ++ join_comma (p' :: parts))).
  apply latin1_app; [done|]. apply latin1_cons; [lia|done].
Qed.

Lemma stringify_latin1 (state : ReceiptState) :
  encodable state -> latin1 (JSON_stringify (ReceiptState_value state)).
Proof.
  intros (Hrate & Hvalue & Hitems). rewrite State_text.
  assert (Harray : latin1 (JSON_stringify
                             (VArr (LineItem_value <$> Codec.items state)))).
  { cbn [JSON_stringify]. apply latin1_cons; [lia|].
    apply latin1_app; [|by repeat constructor].
    apply join_comma_latin1. rewrite Forall_forall. intros p Hp.
    apply list_elem_of_In, in_map_iff in Hp as (v & <- & Hv).
    apply list_elem_of_In, list_elem_of_fmap in Hv as (it & -> & Hit).
    rewrite Forall_forall in Hitems.
    destruct (Hitems it Hit) as (Hname & Hcat & _).
    rewrite <- (app_nil_r (JSON_stringify _)), LineItem_text.
    repeat first
      [ done
      | apply quote_latin1
      | apply quote_body_latin1
      | apply latin1_js
      | apply number_json_latin1
      | by destruct (taxable it); apply latin1_js
      | apply latin1_app
      | apply latin1_cons; [lia|]
      | constructor ]. }
  repeat first
    [ done
    | apply quote_latin1
    | apply quote_body_latin1
    | apply latin1_js
    | by destruct (Codec.discountType state); apply quote_latin1, latin1_js
    | apply latin1_app
    | apply latin1_cons; [lia|]
    | constructor ].
Qed.

(** On every encodable state, [decodeState (encodeState state)] is the
    state. *)
Theorem encode_decode_round_trip (state : ReceiptState) :
  encodable state ->
  exists encoded,
    encodeState state = Return encoded
    /\ decodeState encoded = Return (ReceiptState_value state).
Proof.
  intros Hstate.
  destruct (atob_btoa (JSON_stringify (ReceiptState_value state)))
    as [Hbtoa Hatob]; [by apply stringify_latin1|].
  exists (encode (JSON_stringify (ReceiptState_value state))).
  split; [exact Hbtoa|].
  unfold decodeState. rewrite Hatob. cbn [and_then].
  by rewrite JSON_parse_stringify.
Qed.

Lemma latin1_state_encodable : encodable latin1_state.
Proof.
  repeat split; repeat constructor; try (cbn; lia); vm_compute; reflexivity.
Qed.

Example price_round_trips_examples :
  forallb price_round_trips
    [ Fin (Q2Qc 0); Fin (Q2Qc 3); Fin (Q2Qc (249 # 100)); Fin (Q2Qc (1 # 100));
      Fin (Q2Qc (- 5 # 2)); Fin (Q2Qc 100000);
      Fin (Q2Qc (123456789012345 # 100));
      Fin (Q2Qc (1 # 10000000)) ] = true
  /\ price_round_trips (Fin (Q2Qc (1 # 3))) = false
  /\ price_round_trips NaN = false.
Proof. repeat split; vm_compute; reflexivity. Qed.

(** * Further properties of the totals engine *)

Lemma group_entry_is_Some (l : list LineItem) :
  is_Some (group_entry l) <-> l <> [].
Proof.
  destruct l as [|x l]; cbn; split; intros Hl; done.
Qed.

Lemma in_category_nonempty (c : jsstring) (items : list LineItem) :
  in_category c items <> [] <-> exists it, it ∈ items /\ category it = c.
Proof.
  unfold in_category. split.
  - destruct (filter _ items) as [|it l] eqn:Hf; [done|]. intros _.
    assert (Hin : it ∈ filter (fun it => category it = c) items)
      by (rewrite Hf; left).
    apply list_elem_of_filter in Hin as [Hc Hin]. by exists it.
  - intros (it & Hin & Hc) Hnil.
    assert (Hf : it ∈ filter (fun it => category it = c) items)
      by (by apply list_elem_of_filter).
    rewrite Hnil in Hf. by apply not_elem_of_nil in Hf.
Qed.

(** A category has a row in the result exactly when some item carries it and
    its name is not a property name of [Object.prototype]. *)
Theorem computeTotals_has_entry_iff
    (items : list LineItem) (taxRate : jsstring) (dt : DiscountType)
    (discountValue : jsstring) (c : jsstring) :
  is_Some (computeTotals items taxRate dt discountValue !! c)
  <-> inherited c = false /\ exists it, it ∈ items /\ category it = c.
Proof.
  rewrite computeTotals_lookup, fmap_is_Some, subtotals_lookup.
  destruct (inherited c).
  - split; [by intros [? ?]|by intros [? _]].
  - rewrite group_entry_is_Some, in_category_nonempty.
    split; [by intros Hit|by intros [_ Hit]].
Qed.

(** The subtotal of a row is what the first pass accumulates: the prices of
    the items of that category added to 0 one after the other, in the order
    of the item list. *)
Theorem entry_subtotal_is_running_sum
    (items : list LineItem) (taxRate : jsstring) (dt : DiscountType)
    (discountValue : jsstring) (c : jsstring) (t : CategoryTotal) :
  computeTotals items taxRate dt discountValue !! c = Some t ->
  subtotal t
  = foldl (fun sum it => (sum + price it)%num) zero (in_category c items).
Proof.
  rewrite computeTotals_lookup.
  destruct (subtotals items !! c) as [t0|] eqn:Hc; [|done]. intros [= <-].
  cbn [subtotal settled]. rewrite (subtotal_of_entry _ _ _ Hc).
  by rewrite foldl_map_add, foldl_add_sum.
Qed.

Lemma entry_subtotal_is_running_sum_witness :
  let t := entry (computeTotals three_items (js "10") percentage (js "20"))
             "Grocery" in
  subtotal t
  = foldl (fun sum it => (sum + price it)%num) zero
      (in_category (js "Grocery") three_items).
Proof.
  intros t.
  apply (entry_subtotal_is_running_sum three_items (js "10") percentage
           (js "20")).
  vm_compute. reflexivity.
Defined.

Lemma in_category_kept (c : jsstring) (items : list LineItem) :
  inherited c = false -> in_category c (kept items) = in_category c items.
Proof.
  intros Hc. unfold in_category, kept.
  induction items as [|it items IH]; [done|].
  rewrite !filter_cons. destruct (decide (category it = c)) as [<-|Hne].
  - rewrite decide_True by done. rewrite filter_cons_True by done.
    by rewrite IH.
  - destruct (decide (inherited (category it) = false)); [|done].
    by rewrite filter_cons_False.
Qed.

Lemma taxable_in_kept (c : jsstring) (items : list LineItem) :
  inherited c = false -> taxable_in (kept items) c = taxable_in items c.
Proof.
  intros Hc. by rewrite !taxable_in_in_category, in_category_kept.
Qed.

Lemma subtotals_kept (items : list LineItem) :
  subtotals (kept items) = subtotals items.
Proof.
  apply map_eq. intros c. rewrite !subtotals_lookup.
  destruct (inherited c) eqn:Hc; [done|]. by rewrite in_category_kept.
Qed.

(** Items whose category is a property name of [Object.prototype] have no
    effect on the result at all: it is the result for the other items. *)
Theorem computeTotals_ignores_inherited
    (items : list LineItem) (taxRate : jsstring) (dt : DiscountType)
    (discountValue : jsstring) :
  computeTotals items taxRate dt discountValue
  = computeTotals (kept items) taxRate dt discountValue.
Proof.
  apply map_eq. intros c. rewrite !computeTotals_lookup, subtotals_kept.
  destruct (subtotals items !! c) as [t0|] eqn:Hc; [|done].
  cbn [fmap option_fmap option_map]. f_equal.
  assert (Hinh : inherited c = false).
  { rewrite subtotals_lookup in Hc. by destruct (inherited c). }
  unfold settled, category_tax. by rewrite taxable_in_kept.
Qed.

(** With a percentage discount the whole row of a category is decided by the
    items of that category alone. *)
Theorem percentage_entry_is_local
    (items items' : list LineItem) (taxRate discountValue : jsstring)
    (c : jsstring) :
  in_category c items' = in_category c items ->
  computeTotals items' taxRate percentage discountValue !! c
  = computeTotals items taxRate percentage discountValue !! c.
Proof.
  intros Hsame. rewrite !computeTotals_lookup, !subtotals_lookup, Hsame.
  destruct (inherited c); [done|].
  destruct (group_entry (in_category c items)) as [t0|]; [|done].
  cbn [fmap option_fmap option_map]. f_equal.
  unfold settled, category_tax, category_discount.
  by rewrite !taxable_in_in_category, Hsame.
Qed.

Lemma percentage_entry_is_local_witness :
  computeTotals (item "Pen" 1 "Office" true :: three_items)
    (js "10") percentage (js "20") !! js "Grocery"
  = computeTotals three_items (js "10") percentage (js "20") !! js "Grocery".
Proof.
  apply (percentage_entry_is_local three_items
           (item "Pen" 1 "Office" true :: three_items)).
  vm_compute. reflexivity.
Defined.

Lemma dValue_of_nan (discountValue : jsstring) :
  parseFloat discountValue = NaN -> dValue_of discountValue = zero.
Proof. unfold dValue_of, or_else. by intros ->. Qed.

(** A discount value that does not parse is treated as 0: the result is the
    one the discount value ["0"] gives, for every item list, tax rate and
    discount type. *)
Theorem unparsable_discount_is_zero
    (items : list LineItem) (taxRate : jsstring) (dt : DiscountType)
    (discountValue : jsstring) :
  parseFloat discountValue = NaN ->
  computeTotals items taxRate dt discountValue
  = computeTotals items taxRate dt (js "0").
Proof.
  intros Hnan. unfold computeTotals. by rewrite (dValue_of_nan _ Hnan).
Qed.

Lemma unparsable_discount_is_zero_witness :
  computeTotals three_items (js "10") amount (js "abc")
  = computeTotals three_items (js "10") amount (js "0").
Proof.
  apply (unparsable_discount_is_zero three_items (js "10") amount (js "abc")).
  reflexivity.
Defined.

(** ** The footer row *)

Lemma num_sum_scaled (l : list num) (k : Qc) :
  Forall (fun s => is_finite s = true) l ->
  num_sum ((fun s => s * Fin k)%num <$> l) = (num_sum l * Fin k)%num.
Proof.
  induction 1 as [|s l Hs Hl IH].
  - cbn. f_equal; try ring.
  - destruct s as [a| | |]; try discriminate.
    rewrite fmap_cons, !num_sum_cons, IH.
    destruct (num_sum_of_finite l Hl) as [b ->]. cbn. f_equal. ring.
Qed.

(** With a percentage discount of a finite value, the discounts of the
    footer row add up to that percentage of the sum of the subtotals, on
    items with finite prices. *)
Theorem percentage_discounts_sum (items : list LineItem)
    (taxRate discountValue : jsstring) :
  Forall (fun it => is_finite (price it) = true) items ->
  is_finite (dValue_of discountValue) = true ->
  sum_field discount (computeTotals items taxRate percentage discountValue)
  = (sum_field subtotal
       (computeTotals items taxRate percentage discountValue)
     * (dValue_of discountValue / hundred))%num.
Proof.
  intros Hall Hd. destruct (dValue_of discountValue) as [d| | |] eqn:Hvalue;
    try discriminate.
  rewrite (sum_field_pointwise discount _ (subtotals items) _
             (computeTotals_lookup items taxRate percentage discountValue)).
  rewrite sum_subtotal_computeTotals.
  destruct (totalSubtotal_finite items Hall) as [T HT].
  rewrite totalSubtotal_sum_field, sum_field_num_sum in HT |- *.
  cbn [discount settled category_discount]. rewrite Hvalue.
  change (Fin d / hundred)%num with (Fin (d / Qc_of_Z 100)).
  unfold Object_values in *.
  rewrite <- num_sum_scaled by (by eapply num_sum_finite).
  by rewrite <- !list_fmap_compose.
Qed.

Lemma percentage_discounts_sum_witness :
  sum_field discount (computeTotals three_items (js "10") percentage (js "20"))
  = (sum_field subtotal
       (computeTotals three_items (js "10") percentage (js "20"))
     * (dValue_of (js "20") / hundred))%num.
Proof.
  apply (percentage_discounts_sum three_items (js "10") (js "20")).
  - repeat constructor.
  - reflexivity.
Defined.

Lemma totals_add_up (l : list CategoryTotal) :
  Forall (fun t => total t = (subtotal t - discount t + tax t)%num) l ->
  is_finite (num_sum (total <$> l)) = true ->
  num_sum (total <$> l)
  = (num_sum (subtotal <$> l) - num_sum (discount <$> l)
     + num_sum (tax <$> l))%num.
Proof.
  induction 1 as [|t l Ht _ IH]; intros Hfin.
  - cbn. f_equal; try ring.
  - rewrite !fmap_cons, !num_sum_cons in *.
    destruct (total t) as [b| | |] eqn:Hb;
      destruct (num_sum (total <$> l)) as [c| | |] eqn:Hc; try discriminate.
    specialize (IH eq_refl).
    destruct (subtotal t) as [s| | |], (discount t) as [d| | |],
      (tax t) as [x| | |]; try discriminate.
    destruct (num_sum (subtotal <$> l)) as [S| | |],
      (num_sum (discount <$> l)) as [D| | |],
      (num_sum (tax <$> l)) as [X| | |]; try discriminate.
    cbn in *. injection Ht as ->. injection IH as ->. f_equal. ring.
Qed.

(** Whenever the total of the footer row is a finite number, it is the sum
    of the subtotals, less the sum of the discounts, plus the sum of the
    taxes of that row. *)
Theorem footer_total_adds_up (items : list LineItem)
    (taxRate : jsstring) (dt : DiscountType) (discountValue : jsstring) :
  is_finite (sum_field total (computeTotals items taxRate dt discountValue))
  = true ->
  sum_field total (computeTotals items taxRate dt discountValue)
  = (sum_field subtotal (computeTotals items taxRate dt discountValue)
     - sum_field discount (computeTotals items taxRate dt discountValue)
     + sum_field tax (computeTotals items taxRate dt discountValue))%num.
Proof.
  rewrite !sum_field_num_sum. apply totals_add_up.
  apply Forall_forall. intros t Ht. unfold Object_values in Ht.
  apply list_elem_of_fmap in Ht as ([c t'] & -> & Hin).
  apply elem_of_map_to_list in Hin. rewrite computeTotals_lookup in Hin.
  destruct (subtotals items !! c) as [t0|]; [|done].
  by injection Hin as <-.
Qed.

Lemma footer_total_adds_up_witness :
  sum_field total (computeTotals three_items (js "10") amount (js "3"))
  = (sum_field subtotal (computeTotals three_items (js "10") amount (js "3"))
     - sum_field discount
         (computeTotals three_items (js "10") amount (js "3"))
     + sum_field tax (computeTotals three_items (js "10") amount (js "3")))%num.
Proof.
  apply (footer_total_adds_up three_items (js "10") amount (js "3")).
  vm_compute. reflexivity.
Defined.
(** * Further properties of the state codec *)

Lemma encode_decode_round_trip_witness :
  exists encoded,
    encodeState latin1_state = Return encoded
    /\ decodeState encoded = Return (ReceiptState_value latin1_state).
Proof.
  apply (encode_decode_round_trip latin1_state).
  repeat split; repeat constructor; try (cbn; lia); vm_compute; reflexivity.
Defined.

Lemma encodeState_throws_on_wide_unit_witness :
  encodeState C1_state = Throw InvalidCharacterError.
Proof.
  apply (encodeState_throws_on_wide_unit C1_state
           {| name := [26085; 26412]%N; price := Fin (Q2Qc 3);
              category := js "Grocery"; taxable := true |} 26085%N).
  - left.
  - left. left.
  - reflexivity.
  - reflexivity.
  - reflexivity.
Defined.

Lemma strip_padding_keeps (c : N) (data : jsstring) :
  c ∈ data -> c <> 61%N -> c ∈ strip_padding data.
Proof.
  intros Hin Hc. unfold strip_padding.
  assert (Hrev : c ∈ rev data) by (by apply list_elem_of_In, in_rev, list_elem_of_In in Hin).
  assert (Heat : forall s r, eat 61 s = Some r -> c ∈ s -> c ∈ r).
  { intros s r. unfold eat. destruct s as [|d s]; [done|].
    destruct (N.eqb_spec d 61) as [->|]; [|done]. intros [= <-] Hs.
    apply elem_of_cons in Hs as [?|?]; [congruence|done]. }
  assert (Hback : forall s, c ∈ s -> c ∈ rev s).
  { intros s Hs. by apply list_elem_of_In, in_rev, list_elem_of_In;
      rewrite rev_involutive. }
  destruct (eat 61 (rev data)) as [r|] eqn:H1; [|done].
  pose proof (Heat _ _ H1 Hrev) as Hr.
  destruct (eat 61 r) as [r'|] eqn:H2; [|by apply Hback].
  apply Hback. by apply (Heat _ _ H2).
Qed.

Lemma atob_rejects (encoded : jsstring) (c : N) :
  c ∈ encoded ->
  alphabet_index c = None -> is_ascii_whitespace c = false -> c <> 61%N ->
  atob encoded = Throw InvalidCharacterError.
Proof.
  intros Hin Hindex Hwhite Hpad. unfold atob.
  set (stripped := filter (fun c => is_ascii_whitespace c = false) encoded).
  assert (Hs : c ∈ stripped) by (by apply list_elem_of_filter).
  set (unpadded := if (length stripped mod 4 =? 0)%nat
                   then strip_padding stripped else stripped).
  assert (Hu : c ∈ unpadded).
  { unfold unpadded. destruct (_ =? _)%nat; [by apply strip_padding_keeps|done]. }
  destruct (length unpadded mod 4 =? 1)%nat; [done|].
  destruct (mapM alphabet_index unpadded) as [sextets|] eqn:Hm; [|done].
  exfalso. assert (Hsome : is_Some (mapM alphabet_index unpadded)) by (by rewrite Hm).
  apply mapM_is_Some in Hsome. rewrite Forall_forall in Hsome.
  destruct (Hsome c Hu) as [x Hx]. cbn in Hx. congruence.
Qed.

(** A corrupted encoding decodes to null: any code unit that is not a base64
    character, not ASCII white space and not [=] makes [decodeState] return
    null. *)
Theorem decodeState_corrupt_is_null (encoded : jsstring) (c : N) :
  c ∈ encoded ->
  alphabet_index c = None -> is_ascii_whitespace c = false -> c <> 61%N ->
  decodeState encoded = Return VNull.
Proof.
  intros Hin Hindex Hwhite Hpad. unfold decodeState.
  by rewrite (atob_rejects encoded c).
Qed.

Lemma decodeState_corrupt_is_null_witness :
  decodeState (js "e30!") = Return VNull.
Proof.
  apply (decodeState_corrupt_is_null (js "e30!") 33%N).
  - do 3 right. left.
  - reflexivity.
  - reflexivity.
  - discriminate.
Defined.

Lemma btoa_result (data encoded : jsstring) :
  btoa data = Return encoded -> latin1 data /\ encoded = encode data.
Proof.
  unfold btoa. destruct (forallb _ data) eqn:Hall; [|done].
  intros [= <-]. split; [|done].
  rewrite forallb_forall in Hall. apply Forall_forall. intros c Hc.
  apply N.leb_le, Hall. by apply list_elem_of_In.
Qed.

(** What [encodeState] returns is made of base64 characters and [=] only,
    and its length is a multiple of four. *)
Theorem encodeState_output_is_base64 (state : ReceiptState)
    (encoded : jsstring) :
  encodeState state = Return encoded ->
  Forall (fun c => is_Some (alphabet_index c) \/ c = 61%N) encoded
  /\ (length encoded mod 4 = 0)%nat.
Proof.
  unfold encodeState. intros Hbtoa.
  apply btoa_result in Hbtoa as [Hlatin ->]. split; [|apply encode_length].
  rewrite encode_sextets. apply Forall_app. split.
  - apply Forall_fmap. eapply Forall_impl; [by apply sextets_bound|].
    intros x Hx. left. cbn. rewrite alphabet_index_char by done. by eexists.
  - apply Forall_replicate. by right.
Qed.

Lemma encodeState_output_is_base64_witness :
  exists encoded,
    encodeState empty_state = Return encoded
    /\ Forall (fun c => is_Some (alphabet_index c) \/ c = 61%N) encoded
    /\ (length encoded mod 4 = 0)%nat.
Proof.
  eexists. split; [vm_compute; reflexivity|].
  apply (encodeState_output_is_base64 empty_state).
  vm_compute. reflexivity.
Defined.

Lemma LineItem_value_inj (a b : LineItem) :
  LineItem_value a = LineItem_value b -> a = b.
Proof. destruct a, b. cbn. by intros [= -> -> -> ->]. Qed.

Lemma ReceiptState_value_inj (a b : ReceiptState) :
  ReceiptState_value a = ReceiptState_value b -> a = b.
Proof.
  destruct a as [its1 tr1 dt1 dv1], b as [its2 tr2 dt2 dv2]. cbn.
  intros [= Hits -> Hdt ->].
  assert (its1 = its2) as ->.
  { assert (Hinj : Inj (=) (=) LineItem_value)
      by (intros x y; apply LineItem_value_inj).
    by apply (inj (fmap LineItem_value)). }
  by destruct dt1, dt2.
Qed.

(** Two encodable states with the same encoding are the same state. *)
Theorem encodeState_injective (a b : ReceiptState) :
  encodable a -> encodable b ->
  encodeState a = encodeState b -> a = b.
Proof.
  intros Ha Hb Heq. apply ReceiptState_value_inj.
  pose proof (JSON_parse_stringify a Ha) as Hpa.
  pose proof (JSON_parse_stringify b Hb) as Hpb.
  pose proof (atob_btoa _ (stringify_latin1 a Ha)) as [Hea Hda].
  pose proof (atob_btoa _ (stringify_latin1 b Hb)) as [Heb Hdb].
  unfold encodeState in Heq.
  remember (JSON_stringify (ReceiptState_value a)) as ta.
  remember (JSON_stringify (ReceiptState_value b)) as tb.
  assert (Htext : ta = tb).
  { assert (Henc : encode ta = encode tb) by congruence.
    rewrite Henc in Hda. congruence. }
  congruence.
Qed.

Lemma encodeState_injective_witness : latin1_state = latin1_state.
Proof.
  apply (encodeState_injective latin1_state latin1_state).
  - repeat split; repeat constructor; try (cbn; lia); vm_compute; reflexivity.
  - repeat split; repeat constructor; try (cbn; lia); vm_compute; reflexivity.
  - reflexivity.
Defined.
(** * The item rows *)

Lemma isLastItemEmpty_has_content (item : LineItem) :
  isLastItemEmpty item = negb (has_content item).
Proof.
  unfold isLastItemEmpty, has_content.
  by destruct (nonempty (name item)), (truthy (price item)),
    (nonempty (category item)), (taxable item).
Qed.

Lemma url_items_all_empty (items : list LineItem) :
  Forall (fun item => has_content item = false) items -> url_items items = [].
Proof.
  unfold url_items. induction 1 as [|item items Hitem _ IH]; [done|].
  rewrite filter_cons_False; [done|]. by rewrite Hitem.
Qed.

Lemma url_items_has_content (items : list LineItem) :
  Forall (fun item => has_content item = true) (url_items items).
Proof.
  apply Forall_forall. intros item Hin.
  by apply list_elem_of_filter in Hin as [Hitem _].
Qed.

Lemma url_items_app (l k : list LineItem) :
  url_items (l ++ k) = url_items l ++ url_items k.
Proof. apply filter_app. Qed.

Lemma url_items_of_content (items : list LineItem) :
  Forall (fun item => has_content item = true) items -> url_items items = items.
Proof.
  unfold url_items. induction 1 as [|item items Hitem _ IH]; [done|].
  by rewrite filter_cons_True, IH.
Qed.

Lemma ensure_empty_row_snoc (init : list LineItem) (row : LineItem) :
  ensure_empty_row (init ++ [row])
  = if has_content row then Done ((init ++ [row]) ++ [EMPTY_ITEM])
    else Done (init ++ [row]).
Proof.
  unfold ensure_empty_row. rewrite last_snoc, isLastItemEmpty_has_content.
  by destruct (has_content row).
Qed.

(** The rows stored in the URL make the effect throw when they are loaded
    again, if no row had content: the filter leaves no row, and the effect
    reads a property of [undefined]. *)
Theorem stored_empty_rows_throw_on_load (items : list LineItem) :
  Forall (fun item => has_content item = false) items ->
  ensure_empty_row (url_items items) = TypeError.
Proof. intros Hall. by rewrite url_items_all_empty. Qed.

Lemma stored_empty_rows_throw_on_load_witness :
  ensure_empty_row (url_items [EMPTY_ITEM]) = TypeError.
Proof.
  apply (stored_empty_rows_throw_on_load [EMPTY_ITEM]).
  repeat constructor.
Defined.

(** When some row has content, loading the stored rows gives them back with
    one empty row after them. *)
Theorem stored_rows_get_empty_row_on_load (items : list LineItem)
    (item : LineItem) :
  item ∈ items -> has_content item = true ->
  ensure_empty_row (url_items items) = Done (url_items items ++ [EMPTY_ITEM]).
Proof.
  intros Hin Hitem.
  assert (Hstored : item ∈ url_items items) by (by apply list_elem_of_filter).
  pose proof (url_items_has_content items) as Hall.
  destruct (url_items items) as [|x l] using rev_ind; [by inversion Hstored|].
  rewrite Forall_app, Forall_singleton in Hall. destruct Hall as [_ Hx].
  by rewrite ensure_empty_row_snoc, Hx.
Qed.

Lemma stored_rows_get_empty_row_on_load_witness :
  ensure_empty_row (url_items (three_items ++ [EMPTY_ITEM]))
  = Done (url_items (three_items ++ [EMPTY_ITEM]) ++ [EMPTY_ITEM]).
Proof.
  apply (stored_rows_get_empty_row_on_load (three_items ++ [EMPTY_ITEM])
           (item "Milk" 3 "Grocery" true)).
  - left.
  - reflexivity.
Defined.

(** What the effect leaves ends with a row without content, and running the
    effect on it again changes nothing. *)
Theorem ensure_empty_row_settles (items items' : list LineItem) :
  ensure_empty_row items = Done items' ->
  ensure_empty_row items' = Done items'
  /\ exists init row, items' = init ++ [row] /\ has_content row = false.
Proof.
  destruct items as [|x l _] using rev_ind; [done|].
  rewrite ensure_empty_row_snoc.
  destruct (has_content x) eqn:Hx; intros [= <-].
  - split; [by rewrite ensure_empty_row_snoc|]. by eexists _, _.
  - split; [by rewrite ensure_empty_row_snoc, Hx|]. by eexists _, _.
Qed.

Lemma ensure_empty_row_settles_witness :
  ensure_empty_row (three_items ++ [EMPTY_ITEM])
  = Done (three_items ++ [EMPTY_ITEM])
  /\ exists init row,
       three_items ++ [EMPTY_ITEM] = init ++ [row] /\ has_content row = false.
Proof.
  apply (ensure_empty_row_settles three_items (three_items ++ [EMPTY_ITEM])).
  reflexivity.
Defined.

Lemma filter_index_shift {A} (keep : nat -> bool) (start : nat) (l : list A) :
  filter_index keep (S start) l = filter_index (fun i => keep (S i)) start l.
Proof.
  revert start. induction l as [|x l IH]; intros start; [done|].
  cbn. by rewrite !IH.
Qed.

Lemma filter_index_all {A} (keep : nat -> bool) (start : nat) (l : list A) :
  (forall i, keep i = true) -> filter_index keep start l = l.
Proof.
  intros Hkeep. revert start. induction l as [|x l IH]; intros start; [done|].
  cbn. by rewrite Hkeep, IH.
Qed.

(** Filtering out one index is [delete]. *)
Lemma filter_index_delete {A} (index : nat) (l : list A) :
  filter_index (fun i => negb (i =? index)%nat) 0 l = delete index l.
Proof.
  revert index. induction l as [|x l IH]; intros index; [done|].
  destruct index as [|index]; cbn.
  - rewrite filter_index_shift. by apply filter_index_all.
  - rewrite filter_index_shift. f_equal. apply IH.
Qed.

Lemma handleDeleteItem_cases (index : nat) (prev : list LineItem) :
  handleDeleteItem index prev
  = match last (delete index prev) with
    | Some lastItem =>
        if has_content lastItem then delete index prev ++ [EMPTY_ITEM]
        else delete index prev
    | None => [EMPTY_ITEM]
    end.
Proof.
  unfold handleDeleteItem. rewrite filter_index_delete.
  destruct (delete index prev) as [|x l _] using rev_ind; [done|].
  by rewrite last_snoc.
Qed.

(** After a row is deleted the rows end with a row without content: the
    effect finds it, and neither throws nor adds a row. *)
Theorem handleDeleteItem_keeps_empty_row (index : nat)
    (prev : list LineItem) :
  ensure_empty_row (handleDeleteItem index prev)
  = Done (handleDeleteItem index prev).
Proof.
  rewrite handleDeleteItem_cases.
  destruct (delete index prev) as [|x l _] using rev_ind; [done|].
  rewrite last_snoc. destruct (has_content x) eqn:Hx.
  - by rewrite ensure_empty_row_snoc.
  - by rewrite ensure_empty_row_snoc, Hx.
Qed.

(** Deleting a row takes that row, and no other, out of what is stored in
    the URL. *)
Theorem handleDeleteItem_stores_the_rest (index : nat)
    (prev : list LineItem) :
  url_items (handleDeleteItem index prev) = url_items (delete index prev).
Proof.
  rewrite handleDeleteItem_cases.
  destruct (delete index prev) as [|x l _] using rev_ind; [done|].
  rewrite last_snoc. destruct (has_content x); [|done].
  rewrite url_items_app. apply app_nil_r.
Qed.

(** An index past the end deletes nothing: rows that end with an empty row
    stay as they are. *)
Theorem handleDeleteItem_out_of_range (index : nat) (prev : list LineItem) :
  (length prev <= index)%nat ->
  ensure_empty_row prev = Done prev ->
  handleDeleteItem index prev = prev.
Proof.
  intros Hindex Hprev. rewrite handleDeleteItem_cases.
  rewrite delete_take_drop, take_ge, drop_ge, app_nil_r by lia.
  destruct prev as [|x l _] using rev_ind; [done|].
  rewrite ensure_empty_row_snoc in Hprev. rewrite last_snoc.
  destruct (has_content x); [|done].
  injection Hprev as Hprev. apply (f_equal length) in Hprev.
  rewrite !length_app in Hprev. cbn in Hprev. lia.
Qed.

Lemma handleDeleteItem_out_of_range_witness :
  handleDeleteItem 7 (three_items ++ [EMPTY_ITEM])
  = three_items ++ [EMPTY_ITEM].
Proof.
  apply (handleDeleteItem_out_of_range 7 (three_items ++ [EMPTY_ITEM])).
  - cbn. lia.
  - reflexivity.
Defined.

Lemma ends_with_empty_row (prev : list LineItem) :
  ensure_empty_row prev = Done prev ->
  exists init row, prev = init ++ [row] /\ has_content row = false.
Proof.
  destruct prev as [|x l _] using rev_ind; [done|].
  rewrite ensure_empty_row_snoc. destruct (has_content x) eqn:Hx.
  - intros [= Hprev]. apply (f_equal length) in Hprev.
    rewrite !length_app in Hprev. cbn in Hprev. lia.
  - intros _. by exists l, x.
Qed.

Lemma url_items_handleImportedItems (importedItems prev : list LineItem) :
  ensure_empty_row prev = Done prev ->
  url_items (handleImportedItems importedItems prev)
  = url_items prev ++ url_items importedItems.
Proof.
  intros (init & row & -> & Hrow)%ends_with_empty_row.
  unfold handleImportedItems. rewrite length_app. cbn [length].
  replace (length init + 1 - 1)%nat with (length init) by lia.
  rewrite take_app_length, !url_items_app.
  rewrite (url_items_all_empty [row]) by (by repeat constructor).
  rewrite (url_items_all_empty [EMPTY_ITEM]) by (by repeat constructor).
  by rewrite !app_nil_r.
Qed.

(** Importing items into rows that end with an empty row stores the rows
    that were stored before, then the imported ones; and the result ends
    with the empty row the effect looks for. *)
Theorem handleImportedItems_appends (importedItems prev : list LineItem) :
  ensure_empty_row prev = Done prev ->
  url_items (handleImportedItems importedItems prev)
  = url_items prev ++ url_items importedItems
  /\ ensure_empty_row (handleImportedItems importedItems prev)
     = Done (handleImportedItems importedItems prev).
Proof.
  intros Hprev. split; [by apply url_items_handleImportedItems|].
  unfold handleImportedItems. by rewrite (assoc_L (++)), ensure_empty_row_snoc.
Qed.

Lemma handleImportedItems_appends_witness :
  url_items (handleImportedItems three_items [EMPTY_ITEM])
  = url_items [EMPTY_ITEM] ++ url_items three_items
  /\ ensure_empty_row (handleImportedItems three_items [EMPTY_ITEM])
     = Done (handleImportedItems three_items [EMPTY_ITEM]).
Proof.
  apply (handleImportedItems_appends three_items [EMPTY_ITEM]).
  reflexivity.
Defined.

(** ** The category registry *)

Lemma registered_cases (c : change) (categories : list jsstring) :
  registered c categories = categories
  \/ exists value,
       c = Category value /\ value <> [] /\ (value ∉ categories)
       /\ registered c categories = categories ++ [value].
Proof.
  destruct c as [v|v|v|b]; cbn; auto.
  destruct v as [|u v]; cbn; auto.
  destruct (bool_decide_reflect (u :: v ∈ categories)); cbn; auto.
  right. by exists (u :: v).
Qed.

(** A change of a row keeps the registry free of duplicates and of the empty
    string, keeps what was registered in front, and keeps the number of
    rows. *)
Theorem handleItemChange_keeps_registry (Number : jsstring -> num)
    (index : nat) (c : change) (items items' : list LineItem)
    (categories categories' : list jsstring) :
  NoDup categories -> ([] ∉ categories) ->
  handleItemChange Number index c (items, categories)
  = Some (items', categories') ->
  NoDup categories' /\ ([] ∉ categories')
  /\ (categories `prefix_of` categories')
  /\ length items' = length items.
Proof.
  intros Hnd Hempty. unfold handleItemChange. cbn [fst snd].
  destruct (items !! index) as [row|]; [|done]. intros [= <- <-].
  rewrite length_insert.
  destruct (registered_cases c categories) as [->|(v & _ & Hv & Hnew & ->)].
  - done.
  - repeat split.
    + apply NoDup_app. repeat split; [done| |apply NoDup_singleton].
      intros x Hx ->%list_elem_of_singleton. done.
    + rewrite elem_of_app, list_elem_of_singleton. intros [?|?]; congruence.
    + by apply prefix_app_r.
Qed.

Lemma handleItemChange_keeps_registry_witness :
  let after := <[1%nat := updated (fun _ => zero) (item "Bread" 2 "Grocery" false)
                   (Category (js "Bakery"))]> three_items in
  NoDup [js "Grocery"; js "Home"; js "Bakery"]
  /\ ([] ∉ [js "Grocery"; js "Home"; js "Bakery"])
  /\ ([js "Grocery"; js "Home"] `prefix_of`
        [js "Grocery"; js "Home"; js "Bakery"])
  /\ length after = length three_items.
Proof.
  apply (handleItemChange_keeps_registry (fun _ => zero) 1
           (Category (js "Bakery")) three_items _ [js "Grocery"; js "Home"]).
  - apply (bool_decide_unpack _). vm_compute. reflexivity.
  - apply (bool_decide_unpack _). vm_compute. reflexivity.
  - reflexivity.
Defined.

Lemma starts_with_refl (s : jsstring) : starts_with s s = true.
Proof. induction s as [|c s IH]; [done|]. cbn. by rewrite N.eqb_refl. Qed.

Lemma includes_refl (s : jsstring) : includes s s = true.
Proof. destruct s; cbn [includes]; by rewrite starts_with_refl. Qed.

Lemma registered_category (value : jsstring) (categories : list jsstring) :
  value <> [] -> value ∈ registered (Category value) categories.
Proof.
  intros Hv. cbn. destruct value as [|u v]; [done|]. cbn.
  destruct (bool_decide_reflect (u :: v ∈ categories)); cbn; [done|].
  apply elem_of_app. right. by left.
Qed.

(** A text typed into the category input is registered at once, and is
    among the suggestions then shown for it, whatever [toLowerCase] does. *)
Theorem typed_category_is_suggested (Number : jsstring -> num)
    (toLowerCase : jsstring -> jsstring) (index : nat) (value : jsstring)
    (items items' : list LineItem) (categories categories' : list jsstring) :
  value <> [] ->
  handleItemChange Number index (Category value) (items, categories)
  = Some (items', categories') ->
  value ∈ getCategorySuggestions toLowerCase categories' value
  /\ category <$> items' !! index = Some value.
Proof.
  intros Hv. unfold handleItemChange. cbn [fst snd].
  destruct (items !! index) as [row|] eqn:Hrow; [|done]. intros [= <- <-].
  split.
  - apply list_elem_of_filter. split; [apply includes_refl|].
    by apply registered_category.
  - rewrite list_lookup_insert_eq; [done|]. by eapply lookup_lt_Some.
Qed.

Lemma typed_category_is_suggested_witness :
  let categories' := registered (Category (js "Ba")) [js "Grocery"] in
  let items' := <[1%nat := updated (fun _ => zero) (item "Bread" 2 "Grocery" false)
                    (Category (js "Ba"))]> three_items in
  js "Ba" ∈ getCategorySuggestions (fun s => s) categories' (js "Ba")
  /\ category <$> items' !! 1%nat = Some (js "Ba").
Proof.
  apply (typed_category_is_suggested (fun _ => zero) (fun s => s) 1 (js "Ba")
           three_items _ [js "Grocery"]).
  - discriminate.
  - reflexivity.
Defined.

Lemma registered_grows (c : change) (categories : list jsstring)
    (v : jsstring) :
  v ∈ categories -> v ∈ registered c categories.
Proof.
  intros Hv. destruct (registered_cases c categories) as [->|(w & _ & _ & _ & ->)];
    [done|]. apply elem_of_app. by left.
Qed.

(** Every text the category input passes through while it is typed stays in
    the registry: after the changes [values], one after the other, every
    non-empty one of them is registered. *)
Theorem every_typed_category_stays (Number : jsstring -> num) (index : nat)
    (values : list jsstring) (state state' : list LineItem * list jsstring) :
  foldl (fun st value =>
           st ≫= handleItemChange Number index (Category value))
        (Some state) values
  = Some state' ->
  forall value, value ∈ values -> value <> [] -> value ∈ state'.2.
Proof.
  revert state'. induction values as [|v values IH] using rev_ind;
    intros state' Hrun value Hin Hv; [by inversion Hin|].
  rewrite foldl_snoc in Hrun.
  destruct (foldl _ (Some state) values) as [[its cats]|] eqn:Hvalues;
    [|done].
  cbn in Hrun. unfold handleItemChange in Hrun. cbn [fst snd] in Hrun.
  destruct (its !! index) as [row|]; [|done]. injection Hrun as <-.
  cbn [snd]. apply elem_of_app in Hin as [Hin|Hin].
  - apply (registered_grows (Category v)).
    by apply (IH (its, cats) eq_refl).
  - apply list_elem_of_singleton in Hin as ->. by apply registered_category.
Qed.

Lemma every_typed_category_stays_witness :
  js "Te" ∈ [js "T"; js "Te"; js "Tea"].
Proof.
  apply (every_typed_category_stays (fun _ => zero) 0
           [js "T"; js "Te"; js "Tea"] ([EMPTY_ITEM], [])
           ([item "" 0 "Tea" false], [js "T"; js "Te"; js "Tea"])).
  - reflexivity.
  - right. left.
  - discriminate.
Defined.
(** * Items read off scanned text *)

Lemma is_digit_spec (c : N) : is_digit c = true <-> (48 <= c <= 57)%N.
Proof. unfold is_digit. rewrite andb_true_iff, !N.leb_le. done. Qed.

Lemma span_digits_spec (s ds rest : jsstring) :
  span_digits s = (ds, rest) ->
  s = ds ++ rest /\ Forall (fun c => is_digit c = true) ds.
Proof.
  revert ds rest. induction s as [|c s IH]; intros ds rest; cbn.
  - by intros [= <- <-].
  - destruct (is_digit c) eqn:Hc; [|by intros [= <- <-]].
    destruct (span_digits s) as [ds' rest']. intros [= <- <-].
    destruct (IH _ _ eq_refl) as [-> Hds]. split; [done|by constructor].
Qed.

(** The shape of a match of the price pattern. *)
Lemma match_price_here_shape (s m : jsstring) :
  match_price_here s = Some m ->
  exists dollar d ds a b,
    m = dollar ++ (d :: ds) ++ [46%N; a; b]
    /\ (dollar = [] \/ dollar = [36%N])
    /\ Forall (fun c => is_digit c = true) (d :: ds)
    /\ is_digit a = true /\ is_digit b = true.
Proof.
  unfold match_price_here.
  set (front := match eat 36 s with Some r => ([36%N], r) | None => ([], s) end).
  assert (Hfront : front.1 = [] \/ front.1 = [36%N])
    by (unfold front; destruct (eat 36 s); auto).
  destruct front as [dollar s1]. cbn [fst] in Hfront.
  destruct (span_digits s1) as [ds s2] eqn:Hspan.
  apply span_digits_spec in Hspan as [_ Hds].
  destruct ds as [|d ds]; [done|].
  destruct (eat 46 s2) as [[|a [|b r]]|]; try done.
  destruct (is_digit a) eqn:Ha; [|done].
  destruct (is_digit b) eqn:Hb; [|done].
  intros [= <-]. by exists dollar, d, ds, a, b.
Qed.

Lemma match_price_found (s : jsstring) (start index : nat) (m : jsstring) :
  match_price s start = Some (index, m) ->
  exists rest, match_price_here rest = Some m.
Proof.
  revert start. induction s as [|c s IH]; intros start; cbn [match_price].
  - destruct (match_price_here []) eqn:Hm; [|done]. intros [= <- <-]. eauto.
  - destruct (match_price_here (c :: s)) eqn:Hm; [intros [= <- <-]; eauto|].
    apply IH.
Qed.

Lemma digit_is_not_dollar (c : N) : is_digit c = true -> (c =? 36)%N = false.
Proof. intros H%is_digit_spec. apply N.eqb_neq. lia. Qed.

Lemma remove_dollar_digits (ds rest : jsstring) :
  Forall (fun c => is_digit c = true) ds ->
  remove_dollar (ds ++ rest) = ds ++ remove_dollar rest.
Proof.
  induction 1 as [|c ds Hc _ IH]; [done|].
  cbn. by rewrite (digit_is_not_dollar c Hc), IH.
Qed.

Lemma remove_dollar_match (dollar ds : jsstring) (a b : N) :
  dollar = [] \/ dollar = [36%N] ->
  Forall (fun c => is_digit c = true) ds ->
  is_digit a = true -> is_digit b = true ->
  remove_dollar (dollar ++ ds ++ [46%N; a; b]) = ds ++ [46%N; a; b].
Proof.
  intros [->| ->] Hds Ha Hb; [|done].
  rewrite app_nil_l, remove_dollar_digits by done. f_equal.
  cbn. by rewrite (digit_is_not_dollar a Ha), (digit_is_not_dollar b Hb).
Qed.

Lemma digits_run (ds rest : jsstring) (acc : Z) (count : nat) :
  Forall (fun c => is_digit c = true) ds ->
  match rest with c :: _ => is_digit c = false | [] => True end ->
  digits (ds ++ rest) acc count
  = (digits_value ds acc, (count + length ds)%nat, rest).
Proof.
  intros Hds Hrest. revert acc count.
  induction Hds as [|c ds Hc _ IH]; intros acc count.
  - cbn [app digits_value foldl length]. rewrite Nat.add_0_r.
    destruct rest as [|c rest]; [done|]. cbn [digits]. unfold digit_of.
    unfold is_digit in Hrest. by rewrite Hrest.
  - cbn [app digits]. unfold digit_of at 1. unfold is_digit in Hc.
    rewrite Hc, IH. cbn [length digits_value foldl]. do 2 f_equal. lia.
Qed.

Lemma digits_value_nonneg (ds : jsstring) (acc : Z) :
  Forall (fun c => is_digit c = true) ds -> 0 <= acc ->
  0 <= digits_value ds acc.
Proof.
  intros Hds. revert acc. induction Hds as [|c ds Hc _ IH]; intros acc Hacc;
    [done|].
  cbn. apply IH. apply is_digit_spec in Hc. lia.
Qed.

Lemma digit_cases (c : N) :
  is_digit c = true ->
  c ∈ [48; 49; 50; 51; 52; 53; 54; 55; 56; 57]%N.
Proof.
  intros H%is_digit_spec.
  rewrite !elem_of_cons, elem_of_nil. lia.
Qed.

(** A string that starts with a digit has no white space or sign in front,
    and is not [Infinity]. *)
Lemma parseFloat_digit_first (d : N) (rest : jsstring) :
  is_digit d = true ->
  parseFloat (d :: rest)
  = match
      (let '(ip, ni, r) := digits (d :: rest) 0 0%nat in
       match eat 46 r with
       | Some r' =>
           let '(m, nf, r'') := digits r' ip 0%nat in
           match ni, nf with
           | O, O => None
           | _, _ => Some (Fin (scale10 m (exponent r'' - Z.of_nat nf)))
           end
       | None =>
           match ni with
           | O => None
           | S _ => Some (Fin (scale10 ip (exponent r)))
           end
       end)
    with
    | Some v => v
    | None => NaN
    end.
Proof.
  intros Hd. apply digit_cases in Hd.
  assert (Hbody : parseFloat (d :: rest)
                  = match unsigned_literal (d :: rest) with
                    | Some v => v
                    | None => NaN
                    end).
  { repeat (apply elem_of_cons in Hd as [->|Hd]; [reflexivity|]).
    by inversion Hd. }
  rewrite Hbody. unfold unsigned_literal.
  assert (Hinf : starts_with infinity_word (d :: rest) = false).
  { repeat (apply elem_of_cons in Hd as [->|Hd]; [reflexivity|]).
    by inversion Hd. }
  rewrite Hinf. destruct (digits (d :: rest) 0 0) as [[ip ni] r].
  destruct r as [|c r']; [done|]. unfold eat.
  destruct (N.eqb_spec c 46) as [->|Hc]; [done|].
  destruct c as [|p]; [done|].
  do 6 (destruct p as [p|p|]; try done).
Qed.

(** The text of a price match reads as a whole number of cents. *)
Lemma parseFloat_price (d : N) (ds : jsstring) (a b : N) :
  Forall (fun c => is_digit c = true) (d :: ds) ->
  is_digit a = true -> is_digit b = true ->
  exists cents : Z,
    0 <= cents
    /\ parseFloat ((d :: ds) ++ [46%N; a; b]) = Fin (Q2Qc (cents # 100)).
Proof.
  intros Hds Ha Hb.
  exists (digits_value [a; b] (digits_value (d :: ds) 0)). split.
  { apply digits_value_nonneg; [by repeat constructor|].
    by apply digits_value_nonneg. }
  change ((d :: ds) ++ [46%N; a; b]) with (d :: (ds ++ [46%N; a; b])).
  rewrite parseFloat_digit_first by (by inversion Hds).
  change (d :: (ds ++ [46%N; a; b])) with ((d :: ds) ++ [46%N; a; b]).
  rewrite digits_run by done. cbn [eat N.eqb Pos.eqb].
  change [a; b] with ([a; b] ++ []).
  rewrite digits_run by (by repeat constructor).
  reflexivity.
Qed.

Lemma scan_line_item (line : jsstring) (it : LineItem) :
  scan_line line = Some it ->
  name it <> [] /\ category it = [] /\ taxable it = false
  /\ exists (d : N) (ds : jsstring) (a b : N),
       Forall (fun c => is_digit c = true) (d :: ds ++ [a; b])
       /\ price it = parseFloat ((d :: ds) ++ [46%N; a; b]).
Proof.
  unfold scan_line. destruct (negb (nonempty (trim line))); [done|].
  destruct (match_price (trim line) 0) as [[index m]|] eqn:Hm; [|done].
  destruct (is_nan _); [done|].
  destruct (trim (take index (trim line))) as [|u v] eqn:Hname; [done|].
  cbn [nonempty negb]. intros [= <-]. cbn [name category taxable price].
  repeat split; [done|].
  apply match_price_found in Hm as [rest Hm].
  apply match_price_here_shape in Hm
    as (dollar & d & ds & a & b & -> & Hdollar & Hds & Ha & Hb).
  rewrite remove_dollar_match by done.
  exists d, ds, a, b. split; [|done].
  constructor; [by inversion Hds|]. apply Forall_app. split.
  - by inversion Hds.
  - by repeat constructor.
Qed.

(** Every item read off a text has a name, no category and is not taxable;
    its price is what [parseFloat] reads off one or more digits, a dot and
    two digits, so it is not NaN and not negative. *)
Theorem scanned_item_shape (text : jsstring) (it : LineItem) :
  it ∈ scan text ->
  name it <> [] /\ category it = [] /\ taxable it = false
  /\ is_nan (price it) = false /\ is_negative (price it) = false
  /\ exists (d : N) (ds : jsstring) (a b : N),
       Forall (fun c => is_digit c = true) (d :: ds ++ [a; b])
       /\ price it = parseFloat ((d :: ds) ++ [46%N; a; b]).
Proof.
  unfold scan. intros Hit. apply list_elem_of_omap in Hit as (line & _ & Hline).
  apply scan_line_item in Hline
    as (Hname & Hcategory & Htaxable & d & ds & a & b & Hdigits & Hprice).
  repeat split; try done; [| |by exists d, ds, a, b].
  - destruct (parseFloat_price d ds a b) as (cents & _ & Hcents).
    + inversion Hdigits as [|? ? Hd Hrest]. apply Forall_app in Hrest as [Hds _].
      by constructor.
    + apply Forall_cons in Hdigits as [_ Hrest].
      apply Forall_app in Hrest as [_ Hab]. by inversion Hab.
    + apply Forall_cons in Hdigits as [_ Hrest].
      apply Forall_app in Hrest as [_ Hab].
      inversion Hab as [|? ? _ Hb]. by inversion Hb.
    + by rewrite Hprice, Hcents.
  - destruct (parseFloat_price d ds a b) as (cents & Hpos & Hcents).
    + inversion Hdigits as [|? ? Hd Hrest]. apply Forall_app in Hrest as [Hds _].
      by constructor.
    + apply Forall_cons in Hdigits as [_ Hrest].
      apply Forall_app in Hrest as [_ Hab]. by inversion Hab.
    + apply Forall_cons in Hdigits as [_ Hrest].
      apply Forall_app in Hrest as [_ Hab].
      inversion Hab as [|? ? _ Hb]. by inversion Hb.
    + rewrite Hprice, Hcents. cbn [is_negative]. unfold is_neg.
      apply Z.ltb_ge. change (Qnum (Q2Qc (cents # 100)))
        with (Qnum (Qred (cents # 100))).
      pose proof (Qred_correct (cents # 100)) as Hred.
      destruct (Qred (cents # 100)) as [n dn] eqn:Hq. unfold Qeq in Hred.
      cbn in Hred |- *. nia.
Qed.

Lemma scanned_item_shape_witness :
  let it := item "Milk" (349 # 100) "" false in
  name it <> [] /\ category it = [] /\ taxable it = false
  /\ is_nan (price it) = false /\ is_negative (price it) = false
  /\ exists (d : N) (ds : jsstring) (a b : N),
       Forall (fun c => is_digit c = true) (d :: ds ++ [a; b])
       /\ price it = parseFloat ((d :: ds) ++ [46%N; a; b]).
Proof.
  apply (scanned_item_shape (js "Milk  $3.49 A" ++ [10%N] ++ js "TOTAL")).
  vm_compute. left.
Defined.

(** A line that begins with its price gives no item: the name would be the
    empty text before the price. *)
Theorem price_first_line_is_dropped (line m : jsstring) :
  match_price_here (trim line) = Some m -> scan_line line = None.
Proof.
  intros Hm. unfold scan_line.
  destruct (negb (nonempty (trim line))); [done|].
  destruct (trim line) as [|c s]; cbn [match_price]; rewrite Hm;
    by destruct (is_nan _).
Qed.

Lemma price_first_line_is_dropped_witness :
  scan_line (js "$4.99 Milk") = None.
Proof.
  apply (price_first_line_is_dropped (js "$4.99 Milk") (js "$4.99")).
  reflexivity.
Defined.

Lemma scanned_has_content (text : jsstring) :
  Forall (fun it => has_content it = true) (scan text).
Proof.
  apply Forall_forall. intros it Hit. unfold scan in Hit.
  apply list_elem_of_omap in Hit as (line & _ & Hline).
  apply scan_line_item in Hline as (Hname & _).
  unfold has_content. by destruct (name it).
Qed.

(** Every item read off a text is stored in the URL once it is imported into
    rows that end with an empty row: the stored rows are the ones stored
    before, then all the scanned items. *)
Theorem scanned_items_are_stored (text : jsstring) (prev : list LineItem) :
  ensure_empty_row prev = Done prev ->
  url_items (handleImportedItems (scan text) prev)
  = url_items prev ++ scan text.
Proof.
  intros Hprev. rewrite url_items_handleImportedItems by done.
  by rewrite (url_items_of_content (scan text)) by apply scanned_has_content.
Qed.

Lemma scanned_items_are_stored_witness :
  url_items (handleImportedItems (scan (js "Milk 3.49")) [EMPTY_ITEM])
  = url_items [EMPTY_ITEM] ++ scan (js "Milk 3.49").
Proof.
  apply (scanned_items_are_stored (js "Milk 3.49") [EMPTY_ITEM]).
  reflexivity.
Defined.

Lemma split_lines_nonempty (text : jsstring) : split_lines text <> [].
Proof.
  destruct text as [|c r]; [done|]. cbn.
  destruct (c =? 10)%N; [done|]. by destruct (split_lines r).
Qed.

Lemma split_lines_app (first second : jsstring) :
  split_lines (first ++ 10%N :: second)
  = split_lines first ++ split_lines second.
Proof.
  induction first as [|c first IH]; [done|].
  cbn [app split_lines]. destruct (c =? 10)%N; [by rewrite IH|].
  rewrite IH. pose proof (split_lines_nonempty first) as Hne.
  by destruct (split_lines first).
Qed.

(** A text is read line by line: two texts joined by a line feed give the
    items of the first, then the items of the second. *)
Theorem scan_reads_line_by_line (first second : jsstring) :
  scan (first ++ 10%N :: second) = scan first ++ scan second.
Proof. unfold scan. by rewrite split_lines_app, omap_app. Qed.

(** * The engine over another arithmetic *)

(** With the exact operations the engine of [Arithmetic] is
    [computeTotals]. *)
Lemma computeTotals_exact :
  Arithmetic.computeTotals Num.add Num.sub Num.mul Num.div
    ParseFloat.parseFloat
  = Engine.computeTotals.
Proof. reflexivity. Qed.
